(** * rsssubsbot: the polling and de-duplication engine

    A shallow embedding of [main.go] (and of its earlier revision, the
    second source file of the repository) together with the properties of
    the article keys, the seen-set store, the subscription registry, the
    poll cycle and the persisted document.

    Go maps are modelled by stdpp's [gmap] and [gset]; a map that may be
    [nil] is an [option]; a run-time panic is the result [None] of a
    fallible definition.  The iteration order of a Go map is not fixed by
    the language: every definition that ranges over a map takes the order
    as an explicit list. *)

From Stdlib Require Import ZArith Lia Bool Ascii String.
From Stdlib Require Import DecimalString DecimalZ DecimalPos DecimalN.
From stdpp Require Import base option list sorting gmap strings.

Local Open Scope string_scope.
Local Open Scope Z_scope.

(** ** Package [time] of the Go standard library

    [NewArticleKey] calls [Time.Format] with the layout [time.RFC3339],
    ["2006-01-02T15:04:05Z07:00"].  The library is not part of the
    repository; the definitions of this module follow its algorithm: the
    zone offset in effect is added to the Unix time, the day number is
    split into 400-, 100-, 4- and 1-year cycles, and every field is
    printed by [appendInt]. *)

Module GoTime.

(** A location gives the offset, in seconds east of UTC, in effect at a
    Unix time. *)
Record Location := { zoneOffset : Z -> Z }.

(** An instant with nanosecond resolution, and the location it is
    presented in. *)
Record Time := { unixSec : Z; nsec : Z; loc : Location }.

Definition UTC : Location := {| zoneOffset := fun _ => 0 |}.
Definition FixedZone (offset : Z) : Location := {| zoneOffset := fun _ => offset |}.

(** [Duration] counts nanoseconds. *)
Definition Hour : Z := 3600 * 1000000000.

(** [t.Add(d)]: the location is kept (Go's integer division truncates). *)
Definition Add (t : Time) (d : Z) : Time :=
  let dsec := Z.quot d 1000000000 in
  let ns := nsec t + Z.rem d 1000000000 in
  if 1000000000 <=? ns then
    {| unixSec := unixSec t + dsec + 1; nsec := ns - 1000000000; loc := loc t |}
  else if ns <? 0 then
    {| unixSec := unixSec t + dsec - 1; nsec := ns + 1000000000; loc := loc t |}
  else {| unixSec := unixSec t + dsec; nsec := ns; loc := loc t |}.

(** [t.Before(u)] compares instants; locations play no part. *)
Definition Before (t u : Time) : bool :=
  (unixSec t <? unixSec u) || ((unixSec t =? unixSec u) && (nsec t <? nsec u)).

(** [t.Equal(u)]: the same instant. *)
Definition Equal (t u : Time) : bool :=
  (unixSec t =? unixSec u) && (nsec t =? nsec u).

(** The offset that [Format] prints and adds for [t]. *)
Definition offsetOf (t : Time) : Z := zoneOffset (loc t) (unixSec t).

(** Seconds on the local clock of [t], counted from 1970-01-01T00:00:00. *)
Definition localSec (t : Time) : Z := unixSec t + offsetOf t.

(** Days from 0001-01-01 to 1970-01-01. *)
Definition unixEpochDay : Z := 719162.

(** [absDate]: year and day within the year of a day number counted from
    0001-01-01. *)
Definition absDate (days : Z) : Z * Z :=
  let n1 := days / 146097 in
  let d1 := days - 146097 * n1 in
  let n2 := d1 / 36524 in
  let n2 := n2 - n2 / 4 in
  let d2 := d1 - 36524 * n2 in
  let n3 := d2 / 1461 in
  let d3 := d2 - 1461 * n3 in
  let n4 := d3 / 365 in
  let n4 := n4 - n4 / 4 in
  let d4 := d3 - 365 * n4 in
  (400 * n1 + 100 * n2 + 4 * n3 + n4 + 1, d4).

Definition isLeap (year : Z) : bool :=
  (year mod 4 =? 0) && (negb (year mod 100 =? 0) || (year mod 400 =? 0)).

(** [daysBefore[m]]: days of a non-leap year before month [m+1]. *)
Definition daysBefore (m : Z) : Z :=
  nth (Z.to_nat m) [0; 31; 59; 90; 120; 151; 181; 212; 243; 273; 304; 334; 365] 0.

(** Month (1..12) and day of the month of the [yday]-th day of a year. *)
Definition monthDay (leap : bool) (yday : Z) : Z * Z :=
  if leap && (yday =? 31 + 29 - 1) then (2, 29)
  else
    let day := if leap && (31 + 29 - 1 <? yday) then yday - 1 else yday in
    let month := day / 31 in
    let e := daysBefore (month + 1) in
    if e <=? day then (month + 2, day - e + 1)
    else (month + 1, day - daysBefore month + 1).

(** The six fields of the local clock of [t]. *)
Record Clock := { year : Z; month : Z; day : Z; hour : Z; minute : Z; second : Z }.

Definition clockOfLocal (s : Z) : Clock :=
  let '(y, yd) := absDate (s / 86400 + unixEpochDay) in
  let '(m, d) := monthDay (isLeap y) yd in
  let sod := s mod 86400 in
  {| year := y; month := m; day := d;
     hour := sod / 3600; minute := sod mod 3600 / 60; second := sod mod 60 |}.

Definition clock (t : Time) : Clock := clockOfLocal (localSec t).

Definition digitChar (d : Z) : ascii := ascii_of_N (48 + Z.to_N d).

(** The decimal digits of [u >= 0], most significant first, in front of
    [acc]. *)
Fixpoint digitsFuel (fuel : nat) (u : Z) (acc : string) : string :=
  match fuel with
  | O => acc
  | S f =>
      let acc' := String (digitChar (u mod 10)) acc in
      if u <? 10 then acc' else digitsFuel f (u / 10) acc'
  end.

Definition decimal (u : Z) : string := digitsFuel (S (Z.to_nat (Z.log2 u))) u "".

Fixpoint zeros (n : nat) : string :=
  match n with O => "" | S n' => String "0" (zeros n') end.

(** [appendInt]: [x] in decimal, zero-padded to [width], with a leading
    minus sign when negative. *)
Definition appendInt (x : Z) (width : nat) : string :=
  let sign := if x <? 0 then "-" else "" in
  let u := Z.abs x in
  sign ++
  (if (Nat.eqb width 2 && (u <? 100))%bool then
     String (digitChar (u / 10)) (String (digitChar (u mod 10)) "")
   else if (Nat.eqb width 4 && (u <? 10000))%bool then
     String (digitChar (u / 1000)) (String (digitChar (u / 100 mod 10))
       (String (digitChar (u / 10 mod 10)) (String (digitChar (u mod 10)) "")))
   else
     let ds := decimal u in zeros (width - String.length ds) ++ ds).

(** The layout element ["Z07:00"]. *)
Definition formatZone (offset : Z) : string :=
  if offset =? 0 then "Z"
  else
    let zone := Z.quot offset 60 in
    (if zone <? 0 then "-" else "+") ++
    appendInt (Z.abs zone / 60) 2 ++ ":" ++ appendInt (Z.abs zone mod 60) 2.

Definition formatClock (c : Clock) : string :=
  appendInt (year c) 4 ++ "-" ++ appendInt (month c) 2 ++ "-" ++
  appendInt (day c) 2 ++ "T" ++ appendInt (hour c) 2 ++ ":" ++
  appendInt (minute c) 2 ++ ":" ++ appendInt (second c) 2.

(** [t.Format(time.RFC3339)]. *)
Definition FormatRFC3339 (t : Time) : string :=
  formatClock (clock t) ++ formatZone (offsetOf t).

End GoTime.

Import GoTime.

(** ** Article identity *)

Definition ArticleKey := string.

(** [NewArticleKey]: [up] supersedes [ts]; calling [Format] through a nil
    pointer panics, which is the result [None]. *)
Definition NewArticleKey (title : string) (ts up : option Time) : option ArticleKey :=
  let ts := match up with Some u => Some u | None => ts end in
  match ts with
  | Some t => Some (FormatRFC3339 t ++ "-" ++ title)
  | None => None
  end.

(** The timestamp [NewArticleKey] formats. *)
Definition effectiveTimestamp (ts up : option Time) : option Time :=
  match up with Some u => Some u | None => ts end.

(** Go compares strings byte by byte. *)
Definition keyLess (a b : ArticleKey) : bool := String.ltb a b.

(** ** Seen-set store *)

(** [Seen] is [map[ArticleKey]struct{}]; [None] is the nil map. *)
Definition Seen := option (gset ArticleKey).

(** [Seens] is [map[int64]Seen]. *)
Abbreviation Seens := (gmap Z Seen).

(** [s[cid]]: the zero value, a nil map, for a channel without entry. *)
Definition seenAt (s : Seens) (cid : Z) : Seen := default None (s !! cid).

(** [_, ok := us[a]]: reading a nil map finds nothing. *)
Definition hasKey (us : Seen) (a : ArticleKey) : bool :=
  match us with
  | Some m => bool_decide (a ∈ m)
  | None => false
  end.

Definition NewSeens : Seens := ∅.

Definition CheckSeen (cid : Z) (s : Seens) : Seens :=
  match seenAt s cid with
  | None => <[cid := Some ∅]> s
  | Some _ => s
  end.

(** [Seens.MarkSeen] of [main.go]: the result is the membership before the
    call. *)
Definition MarkSeen (cid : Z) (a : ArticleKey) (s : Seens) : bool * Seens :=
  let s1 := match seenAt s cid with
            | None => <[cid := Some ∅]> s
            | Some _ => s
            end in
  match seenAt s1 cid with
  | Some m =>
      if bool_decide (a ∈ m) then (true, s1)
      else (false, <[cid := Some ({[a]} ∪ m)]> s1)
  | None => (false, s1)
  end.

(** The earlier revision splits the gate in [Seen.Seen] and [Seen.Mark];
    [Mark] assigns into the map and panics on a nil one. *)
Module Rev0.

Definition SeenSeen (us : Seen) (a : ArticleKey) : bool := hasKey us a.

Definition Mark (us : Seen) (a : ArticleKey) : option Seen :=
  match us with
  | Some m => Some (Some ({[a]} ∪ m))
  | None => None
  end.

End Rev0.

(** ** Feeds as the parser returns them *)

Module gofeed.

Record Item := {
  Title : string;
  PublishedParsed : option Time;
  UpdatedParsed : option Time;
  Link : string
}.

(** The parsed feed: its title and its items in document order. *)
Record Feed := { FeedTitle : string; Items : list Item }.

End gofeed.

(** The result of [gofeed.NewParser().ParseURL(url)]: a feed or the text of
    an error. *)
Definition Parser := string -> string + gofeed.Feed.

(** ** Poll cycle *)

(** The local struct [h] of [update]. *)
Record h := { a : ArticleKey; it : gofeed.Item }.

(** [tapi.NewMessage(cid, link)]. *)
Record MessageConfig := { ChatID : Z; Text : string }.

Definition keyOf (it : gofeed.Item) : option ArticleKey :=
  NewArticleKey (gofeed.Title it) (gofeed.PublishedParsed it) (gofeed.UpdatedParsed it).

(** The cutoff of a cycle started at [now]. *)
Definition cutoffTime (now : Time) : Time := Add now (-192 * Hour).

Definition cutoffKey (now : Time) : option ArticleKey :=
  NewArticleKey "" (Some (cutoffTime now)) None.

(** One turn of the loop over [f.Items] for the channel [cid]. *)
Definition scanItem (ts : ArticleKey) (cid : Z) (st : Seens * list h) (i : gofeed.Item)
  : option (Seens * list h) :=
  k ← keyOf i;
  let '(seen, s') := MarkSeen cid k st.1 in
  Some (s', if negb seen
            then if keyLess ts k then (st.2 ++ [{| a := k; it := i |}])%list else st.2
            else st.2).

Fixpoint scanItems (ts : ArticleKey) (cid : Z) (st : Seens * list h) (items : list gofeed.Item)
  : option (Seens * list h) :=
  match items with
  | [] => Some st
  | i :: rest => st' ← scanItem ts cid st i; scanItems ts cid st' rest
  end.

(** [sort.Slice(q, less)] on a short slice: every element moves left while
    it is less than its predecessor. *)
Fixpoint insertSorted {A} (less : A -> A -> bool) (x : A) (l : list A) : list A :=
  match l with
  | [] => [x]
  | y :: l' => if less x y then x :: y :: l' else y :: insertSorted less x l'
  end.

Definition sortSlice {A} (less : A -> A -> bool) (q : list A) : list A :=
  foldl (fun acc x => insertSorted less x acc) [] q.

Definition hLess (x y : h) : bool := keyLess (a x) (a y).

(** What is sent for one channel of one feed: the queue in sorted order. *)
Definition emit (cid : Z) (q : list h) : list (Z * h) :=
  (fun x => (cid, x)) <$> sortSlice hLess q.

Definition message (d : Z * h) : MessageConfig :=
  {| ChatID := d.1; Text := gofeed.Link (it d.2) |}.

(** The loop over the channels of one feed, in the order [chats]. *)
Fixpoint feedChats (ts : ArticleKey) (items : list gofeed.Item) (chats : list Z)
    (st : Seens * list (Z * h)) : option (Seens * list (Z * h)) :=
  match chats with
  | [] => Some st
  | cid :: rest =>
      r ← scanItems ts cid (st.1, []) items;
      feedChats ts items rest (r.1, (st.2 ++ emit cid r.2)%list)
  end.

(** The task started for one feed; a feed that does not parse is skipped. *)
Definition feedTask (parse : Parser) (ts : ArticleKey) (url : string) (chats : list Z)
    (st : Seens * list (Z * h)) : option (Seens * list (Z * h)) :=
  match parse url with
  | inl _ => Some st
  | inr f => feedChats ts (gofeed.Items f) chats st
  end.

(** [Server.update] under the schedule in which the tasks run one after the
    other, in the order the feeds are ranged over; [order] lists every feed
    with its channels in the order they are ranged over.  The result is the
    seen-set store and what was put on [sends], in order. *)
Fixpoint runTasks (parse : Parser) (ts : ArticleKey) (order : list (string * list Z))
    (st : Seens * list (Z * h)) : option (Seens * list (Z * h)) :=
  match order with
  | [] => Some st
  | (url, chats) :: rest => st' ← feedTask parse ts url chats st; runTasks parse ts rest st'
  end.

Definition update (parse : Parser) (now : Time) (order : list (string * list Z)) (s : Seens)
  : option (Seens * list (Z * h)) :=
  ts ← cutoffKey now;
  runTasks parse ts order (s, []).

(** The keys sent to one channel, in the order sent. *)
Definition sentTo (cid : Z) (out : list (Z * h)) : list ArticleKey :=
  (fun d => a d.2) <$> filter (fun d => d.1 = cid) out.

(** The loop of the earlier revision: [Seen] then [Mark] on [s.Seens[cid]]. *)
Definition scanItem0 (ts : ArticleKey) (cid : Z) (st : Seens * list h) (i : gofeed.Item)
  : option (Seens * list h) :=
  k ← keyOf i;
  if negb (Rev0.SeenSeen (seenAt st.1 cid) k) then
    us ← Rev0.Mark (seenAt st.1 cid) k;
    Some (<[cid := us]> st.1,
          if keyLess ts k then (st.2 ++ [{| a := k; it := i |}])%list else st.2)
  else Some st.

(** ** Subscription registry *)

(** [Feed]: the subscribed chats and the name of the feed.  Every [*Feed] of
    the registry is made by [NewFeed]: the pointer and the [Chats] map are
    never nil. *)
Record Feed := { Chats : gset Z; Title : string }.

(** [Feeds] is [map[string]*Feed]. *)
Abbreviation Feeds := (gmap string Feed).

(** A Go [error]; [None] is nil. *)
Definition error := option string.

Definition NewFeeds : Feeds := ∅.

Definition NewFeed (title : string) : Feed := {| Chats := ∅; Title := title |}.

Definition Feed_Add (cid : Z) (f : Feed) : Feed :=
  {| Chats := {[cid]} ∪ Chats f; Title := Title f |}.

Definition Feed_Rm (cid : Z) (f : Feed) : Feed :=
  {| Chats := Chats f ∖ {[cid]}; Title := Title f |}.

(** [Feeds.New]. *)
Definition Feeds_New (parse : Parser) (url : string) (f : Feeds) : error * Feeds :=
  match parse url with
  | inl err => (Some ("gofeed parse " ++ err), f)
  | inr feed => (None, <[url := NewFeed (gofeed.FeedTitle feed)]> f)
  end.

(** [Feeds.Add]. *)
Definition Feeds_Add (parse : Parser) (url : string) (cid : Z) (f : Feeds) : error * Feeds :=
  let '(err, f1) := match f !! url with
                    | None => Feeds_New parse url f
                    | Some _ => (None, f)
                    end in
  match err with
  | Some e => (Some ("feeds add " ++ e), f1)
  | None => (None, alter (Feed_Add cid) url f1)
  end.

(** [strings.Contains]. *)
Fixpoint Contains (s substr : string) : bool :=
  String.prefix substr s ||
  match s with
  | EmptyString => false
  | String _ s' => Contains s' substr
  end.

(** [strings.ToLower] on a string of ASCII bytes. *)
Definition lowerByte (c : ascii) : ascii :=
  let n := N_of_ascii c in
  if ((65 <=? n) && (n <=? 90))%N then ascii_of_N (n + 32) else c.

Fixpoint ToLowerASCII (s : string) : string :=
  match s with
  | EmptyString => EmptyString
  | String c s' => String (lowerByte c) (ToLowerASCII s')
  end.

(** [order] is an order in which [range f] may visit the registry. *)
Definition rangesOver (f : Feeds) (order : list (string * Feed)) : Prop :=
  order ≡ₚ map_to_list f.

(** [Feeds.Rm]; [ToLower] is [strings.ToLower] and [order] the order in which
    the registry is ranged over. *)
Definition Feeds_Rm (ToLower : string -> string) (order : list (string * Feed))
    (url title : string) (cid : Z) (f : Feeds) : error * Feeds :=
  if bool_decide (url ≠ "") && bool_decide (is_Some (f !! url)) then
    (None, alter (Feed_Rm cid) url f)
  else
    let title := ToLower title in
    match List.find (fun p => Contains (ToLower (Title p.2)) title) order with
    | Some (u, _) => (None, alter (Feed_Rm cid) u f)
    | None => (Some "No matching subscription found", f)
    end.

(** [Feeds.List]. *)
Definition Feeds_List (order : list (string * Feed)) (cid : Z) : list string :=
  (fun p => Title p.2 ++ ": " ++ p.1) <$> filter (fun p => cid ∈ Chats p.2) order.

(** The title match of [Feeds.Rm]. *)
Definition titleMatches (ToLower : string -> string) (title : string) (p : string * Feed) : bool :=
  Contains (ToLower (Title p.2)) (ToLower title).

(** ** The persisted document

    [Server.Export] and [NewServer] pass the server through
    [encoding/json].  The document is modelled as a tree; the text of the
    document and the escaping of strings are the library's.  The fields
    [bot] and [store] are not exported and are not part of the document. *)

#[local] Set Warnings "-register-all".
Inductive json :=
  | JNull
  | JString (s : string)
  | JArray (l : list json)
  | JObject (members : list (string * json)).

(** The durable state: the two embedded maps of [Server]. *)
Record ServerState := { feeds : Feeds; seens : Seens }.

(** [strconv.FormatInt(i, 10)], the member name of an integer map key. *)
Definition FormatInt (i : Z) : string := NilZero.string_of_int (Z.to_int i).

(** [strconv.ParseInt(s, 10, 64)]: an optional sign, decimal digits, and the
    range of [int64]. *)
Definition ParseInt (s : string) : option Z :=
  match s with
  | EmptyString => None
  | String c r =>
      let '(neg, ds) := if Ascii.eqb c "+" then (false, r)
                        else if Ascii.eqb c "-" then (true, r)
                        else (false, s) in
      u ← NilZero.uint_of_string ds;
      let n := Z.of_N (N.of_uint u) in
      let v := if neg then - n else n in
      if (- 2 ^ 63 <=? v) && (v <? 2 ^ 63) then Some v else None
  end.

Definition memberLess (x y : string * json) : bool := String.ltb x.1 y.1.

(** The encoder writes the entries of a map sorted by member name. *)
Definition sortMembers (ms : list (string * json)) : list (string * json) :=
  sortSlice memberLess ms.

(** The value [struct{}{}]. *)
Definition encUnit : json := JObject [].

Definition encKeys (ks : gset ArticleKey) : json :=
  JObject (sortMembers ((fun k => (k, encUnit)) <$> elements ks)).

(** [Seen] of [main.go] has no encoder of its own: a map with string keys. *)
Definition encSeen (us : Seen) : json :=
  match us with
  | None => JNull
  | Some m => encKeys m
  end.

Definition encSeens (s : Seens) : json :=
  JObject (sortMembers ((fun p => (FormatInt p.1, encSeen p.2)) <$> map_to_list s)).

Definition encChats (c : gset Z) : json :=
  JObject (sortMembers ((fun cid => (FormatInt cid, encUnit)) <$> elements c)).

Definition encFeed (f : Feed) : json :=
  JObject [("Chats", encChats (Chats f)); ("Title", JString (Title f))].

Definition encFeeds (f : Feeds) : json :=
  JObject (sortMembers ((fun p => (p.1, encFeed p.2)) <$> map_to_list f)).

(** [json.NewEncoder(w).Encode(s)] for the server of [main.go]. *)
Definition encServer (st : ServerState) : json :=
  JObject [("Feeds", encFeeds (feeds st)); ("Seens", encSeens (seens st))].

(** The same document with the members of every object in the order
    [arrange] puts them. *)
Section Arranged.
Variable arrange : list (string * json) -> list (string * json).




Definition encChatsWith (c : gset Z) : json :=
  JObject (arrange ((fun cid => (FormatInt cid, encUnit)) <$> elements c)).



End Arranged.

(** Every channel id of the state is an [int64]. *)
Definition int64 (z : Z) : Prop := - 2 ^ 63 <= z < 2 ^ 63.

Definition int64Ids (st : ServerState) : Prop :=
  (forall cid us, seens st !! cid = Some us -> int64 cid) /\
  (forall url f cid, feeds st !! url = Some f -> cid ∈ Chats f -> int64 cid).

(** Decoding, on documents made of null, strings, arrays and objects.
    [None] stands for a document that Go reports an error for, or that
    leaves a value this model has no place for: a nil [*Feed], a nil
    [Chats], [Feeds] or [Seens], a struct member left out or given twice, or
    one whose name differs in case from the field. *)

(** Into [struct{}]: any object, and null, which changes nothing. *)
Definition decUnit (j : json) : option unit :=
  match j with
  | JObject _ | JNull => Some tt
  | _ => None
  end.

(** A struct member, by its name. *)
Definition member (name : string) (ms : list (string * json)) : option json :=
  match filter (fun p => p.1 = name) ms with
  | [p] => Some p.2
  | _ => None
  end.

(** The entries of a map, each key and value decoded; a later entry with the
    same key replaces an earlier one. *)
Definition decEntries {K V} (key : string -> option K) (val : json -> option V)
    (ms : list (string * json)) : option (list (K * V)) :=
  mapM (fun p => k ← key p.1; v ← val p.2; Some (k, v)) ms.

Definition storeEntries `{Countable K} {V} (kvs : list (K * V)) : gmap K V :=
  foldl (fun m kv => <[kv.1 := kv.2]> m) ∅ kvs.

Definition decKeys (ms : list (string * json)) : option (gset ArticleKey) :=
  kvs ← decEntries Some decUnit ms; Some (list_to_set kvs.*1).

Definition decSeen (j : json) : option Seen :=
  match j with
  | JNull => Some None
  | JObject ms => Some <$> decKeys ms
  | _ => None
  end.

Definition decSeens (j : json) : option Seens :=
  match j with
  | JObject ms => storeEntries <$> decEntries ParseInt decSeen ms
  | _ => None
  end.

Definition decChats (j : json) : option (gset Z) :=
  match j with
  | JObject ms => kvs ← decEntries ParseInt decUnit ms; Some (list_to_set kvs.*1)
  | _ => None
  end.

(** Into a string, which null leaves empty. *)
Definition decTitle (j : json) : option string :=
  match j with
  | JString s => Some s
  | JNull => Some ""
  | _ => None
  end.

Definition decFeed (j : json) : option Feed :=
  match j with
  | JObject ms =>
      c ← member "Chats" ms ≫= decChats;
      t ← member "Title" ms ≫= decTitle;
      Some {| Chats := c; Title := t |}
  | _ => None
  end.

Definition decFeeds (j : json) : option Feeds :=
  match j with
  | JObject ms => storeEntries <$> decEntries Some decFeed ms
  | _ => None
  end.

(** [json.NewDecoder(r).Decode(s)] into the fresh server of [NewServer]. *)
Definition decServer (j : json) : option ServerState :=
  match j with
  | JObject ms =>
      f ← member "Feeds" ms ≫= decFeeds;
      s ← member "Seens" ms ≫= decSeens;
      Some {| feeds := f; seens := s |}
  | _ => None
  end.

(** The earlier revision gives [Seen] its own encoder and decoder, both
    with a value receiver. *)
Module Rev0Json.

(** What decoding ends in. *)
Inductive outcome (A : Type) :=
  | Done (x : A)
  | Failed
  | Panic.
Arguments Done {A} x.
Arguments Failed {A}.
Arguments Panic {A}.

Definition bind {A B} (o : outcome A) (k : A -> outcome B) : outcome B :=
  match o with
  | Done x => k x
  | Failed => Failed
  | Panic => Panic
  end.

Definition ofOption {A} (o : option A) : outcome A :=
  match o with
  | Some x => Done x
  | None => Failed
  end.

(** [Seen.MarshalJSON]: the keys in the order [range us] visits them. *)
Definition MarshalJSON (range : gset ArticleKey -> list ArticleKey) (us : Seen) : json :=
  JArray (JString <$> match us with
                      | None => []
                      | Some m => range m
                      end).

(** [json.Unmarshal(data, &arr)] with [arr []ArticleKey]. *)
Definition decArr (data : json) : option (list ArticleKey) :=
  match data with
  | JNull => Some []
  | JArray l => mapM decTitle l
  | _ => None
  end.

(** The loop [for _, a := range arr { us[a] = struct{}{} }]. *)
Fixpoint markAll (us : Seen) (arr : list ArticleKey) : outcome Seen :=
  match arr with
  | [] => Done us
  | k :: rest =>
      match Rev0.Mark us k with
      | Some us' => markAll us' rest
      | None => Panic
      end
  end.

(** [Seen.UnmarshalJSON]. *)
Definition UnmarshalJSON (us : Seen) (data : json) : outcome Seen :=
  bind (ofOption (decArr data)) (markAll us).

Definition encSeens (range : gset ArticleKey -> list ArticleKey) (s : Seens) : json :=
  JObject (sortMembers ((fun p => (FormatInt p.1, MarshalJSON range p.2)) <$> map_to_list s)).

(** The entries of [Seens]: the decoder hands [UnmarshalJSON] the zero
    value of the element type, a nil map, for every entry. *)
Fixpoint decSeensEntries (ms : list (string * json)) (acc : Seens) : outcome Seens :=
  match ms with
  | [] => Done acc
  | (k, v) :: rest =>
      bind (ofOption (ParseInt k)) (fun cid =>
      bind (UnmarshalJSON None v) (fun us =>
      decSeensEntries rest (<[cid := us]> acc)))
  end.

Definition decSeens (j : json) : outcome Seens :=
  match j with
  | JObject ms => decSeensEntries ms ∅
  | _ => Failed
  end.

(** The members [Feeds] and [Seens] of the document of the earlier
    revision. *)
Definition encServer (range : gset ArticleKey -> list ArticleKey) (st : ServerState) : json :=
  JObject [("Feeds", encFeeds (feeds st)); ("Seens", encSeens range (seens st))].

Definition decServer (j : json) : outcome ServerState :=
  match j with
  | JObject ms =>
      bind (ofOption (member "Feeds" ms ≫= decFeeds)) (fun f =>
      bind (ofOption (member "Seens" ms)) (fun js =>
      bind (decSeens js) (fun s =>
      Done {| feeds := f; seens := s |})))
  | _ => Failed
  end.

End Rev0Json.

(** ** Notions used in the statements *)

(** The keys of a channel, a nil map holding none. *)
Definition keysOf (s : Seens) (cid : Z) : gset ArticleKey := default ∅ (seenAt s cid).

(** The url branch of [Rm] is taken. *)
Definition exactMatch (f : Feeds) (url : string) : Prop :=
  url ≠ "" /\ is_Some (f !! url).

(** ** Orders used in the statements and proofs *)

(** The order of two pairs, first component first. *)
Definition pairLt (p q : Z * Z) : bool :=
  (p.1 <? q.1) || ((p.1 =? q.1) && (p.2 <? q.2)).

(** [P] holds of 0, 1, ..., n-1. *)
Fixpoint allBelow (n : nat) (P : Z -> bool) : bool :=
  match n with
  | O => true
  | S n' => P (Z.of_nat n') && allBelow n' P
  end.

Definition monthDayInRange (leap : bool) (yd : Z) : bool :=
  let p := monthDay leap yd in
  (1 <=? p.1) && (p.1 <=? 12) && (1 <=? p.2) && (p.2 <=? 31).

Definition monthDayStep (leap : bool) (yd : Z) : bool :=
  pairLt (monthDay leap yd) (monthDay leap (yd + 1)).

(** The order of two clocks, field by field from the year down. *)
Definition lexCompare (c1 c2 : comparison) : comparison :=
  match c1 with
  | Eq => c2
  | _ => c1
  end.

Definition clockCompare (c1 c2 : Clock) : comparison :=
  lexCompare (year c1 ?= year c2)
    (lexCompare (month c1 ?= month c2)
       (lexCompare (day c1 ?= day c2)
          (lexCompare (hour c1 ?= hour c2)
             (lexCompare (minute c1 ?= minute c2) (second c1 ?= second c2))))).

(** Local seconds of the years 0000 to 9999, the years that [appendInt]
    prints with four digits and no sign. *)
Definition fourDigitYear (s : Z) : Prop := -62167219200 <= s < 253402300800.

Definition yearLength (leap : bool) : Z := if leap then 366 else 365.

(** The clocks [Format] prints with the fixed width of 19 bytes. *)
Definition printable (c : Clock) : Prop :=
  0 <= year c <= 9999 /\ 1 <= month c <= 12 /\ 1 <= day c <= 31 /\
  0 <= hour c < 24 /\ 0 <= minute c < 60 /\ 0 <= second c < 60.

(** [x] is not after [y] in the order of the keys. *)
Definition hLe (x y : h) : Prop := String.le (a x) (a y).

(** What [gofeed] parsed for an item gives it a key. *)
Definition hasTimestamp (i : gofeed.Item) : Prop :=
  is_Some (effectiveTimestamp (gofeed.PublishedParsed i) (gofeed.UpdatedParsed i)).

(** The keys of the items, in order. *)
Definition keysOfItems (items : list gofeed.Item) : list ArticleKey := omap keyOf items.

(** ** Inputs of the examples *)

(** Two feeds; channel 1 is subscribed to both. *)
Definition exampleFeeds : Feeds :=
  <["http://a.test/rss" := {| Chats := {[1; 2]}; Title := "Tech News" |}]>
    (<["http://b.test/rss" := {| Chats := {[1]}; Title := "Cooking" |}]> NewFeeds).


(** 2020-01-09T00:00:00.5Z; the cutoff is 2020-01-01T00:00:00.5Z. *)
Definition exampleNow : Time :=
  {| unixSec := 1578528000; nsec := 500000000; loc := UTC |}.

(** Published at 2020-01-01T00:00:00Z, half a second before the cutoff. *)
Definition itemSameSecond : gofeed.Item :=
  {| gofeed.Title := "Post";
     gofeed.PublishedParsed := Some {| unixSec := 1577836800; nsec := 0; loc := UTC |};
     gofeed.UpdatedParsed := None;
     gofeed.Link := "http://a.test/post" |}.

(** Published at 2019-12-25T00:00:00Z. *)
Definition itemOld : gofeed.Item :=
  {| gofeed.Title := "Old";
     gofeed.PublishedParsed := Some {| unixSec := 1577232000; nsec := 0; loc := UTC |};
     gofeed.UpdatedParsed := None;
     gofeed.Link := "http://a.test/old" |}.

(** Published at 2020-01-08T00:00:00Z. *)
Definition itemNew : gofeed.Item :=
  {| gofeed.Title := "New";
     gofeed.PublishedParsed := Some {| unixSec := 1578441600; nsec := 0; loc := UTC |};
     gofeed.UpdatedParsed := None;
     gofeed.Link := "http://a.test/new" |}.

(** Published at 2020-01-07T00:00:00Z, in another feed. *)
Definition itemOther : gofeed.Item :=
  {| gofeed.Title := "Other";
     gofeed.PublishedParsed := Some {| unixSec := 1578355200; nsec := 0; loc := UTC |};
     gofeed.UpdatedParsed := None;
     gofeed.Link := "http://b.test/other" |}.

(** Two feeds with one item each. *)
Definition exampleParser : Parser := fun url =>
  if String.eqb url "http://a.test/rss" then
    inr {| gofeed.FeedTitle := "Tech News"; gofeed.Items := [itemNew] |}
  else if String.eqb url "http://b.test/rss" then
    inr {| gofeed.FeedTitle := "Cooking"; gofeed.Items := [itemOther] |}
  else inl "no such host".

(** [order] lists the feeds of the registry, and for each its chats, in an
    order in which [update] may range over them. *)
Definition tasksOver (f : Feeds) (order : list (string * list Z)) : Prop :=
  exists fo,
    rangesOver f fo /\
    Forall2 (fun p o => o.1 = p.1 /\ o.2 ≡ₚ elements (Chats p.2)) fo order.

(** A state with two feeds and two channels. *)
Definition exampleState : ServerState :=
  {| feeds := exampleFeeds;
     seens := <[1 := Some {["2019-12-25T00:00:00Z-Old"; "2020-01-08T00:00:00Z-New"]}]>
                (<[-7 := Some ∅]> NewSeens) |}.


(** 2020-01-09T00:00:00Z on a server five hours west of UTC; the cutoff is
    printed as 2019-12-31T19:00:00-05:00. *)
Definition nowWest : Time :=
  {| unixSec := 1578528000; nsec := 0; loc := FixedZone (-18000) |}.

(** Published at 2019-12-31T21:00:00Z, three hours before that cutoff. *)
Definition itemLate : gofeed.Item :=
  {| gofeed.Title := "Late";
     gofeed.PublishedParsed := Some {| unixSec := 1577826000; nsec := 0; loc := UTC |};
     gofeed.UpdatedParsed := None;
     gofeed.Link := "http://a.test/late" |}.

(** ** Command interpreter

    [Server.Respond] handles the messages one by one.  [go s.Feeds.Add] and
    [go s.update] start tasks; the handler below runs the adds of one
    message in the order of the arguments before the next message, and
    reports a started cycle in [startsUpdate]. *)

Module tapi.

(** [tapi.Message]: the text, [Chat.ID], and [From.UserName] when [From] is
    not nil. *)
Record Message := { Text : string; Chat : Z; From : option string }.

End tapi.

(** The line feed. *)
Definition nl : string := String (ascii_of_nat 10) "".

(** [strings.TrimPrefix]. *)
Fixpoint dropBytes (n : nat) (s : string) : string :=
  match n, s with
  | S n', String _ r => dropBytes n' r
  | _, _ => s
  end.

Definition TrimPrefix (s prefix : string) : string :=
  if String.prefix prefix s then dropBytes (String.length prefix) s else s.

(** [strings.Join]. *)
Fixpoint Join (elems : list string) (sep : string) : string :=
  match elems with
  | [] => ""
  | [x] => x
  | x :: rest => x ++ sep ++ Join rest sep
  end.

(** [strconv.Itoa] of a length. *)
Definition Itoa (n : nat) : string := FormatInt (Z.of_nat n).

(** [strings.Fields] on a string of ASCII bytes: the words between runs of
    tab, line feed, vertical tab, form feed, carriage return and space. *)
Definition isSpaceASCII (c : ascii) : bool :=
  let n := N_of_ascii c in
  (((9 <=? n) && (n <=? 13)) || (n =? 32))%N.

Definition flushWord (cur : string) : list string :=
  match cur with
  | EmptyString => []
  | _ => [cur]
  end.

Fixpoint fieldsFrom (cur : string) (s : string) : list string :=
  match s with
  | EmptyString => flushWord cur
  | String c r =>
      if isSpaceASCII c then (flushWord cur ++ fieldsFrom "" r)%list
      else fieldsFrom (cur ++ String c "") r
  end.

Definition FieldsASCII (s : string) : list string := fieldsFrom "" s.

(** The cases of the switch. *)
Inductive Command := CmdSub | CmdUnsub | CmdList | CmdUpdate | CmdHelp.

(** The switch of [main.go], on the lowered first word without its slash. *)
Definition classify (w : string) : Command :=
  if bool_decide (w ∈ ["sub"; "subscribe"; "add"]) then CmdSub
  else if bool_decide (w ∈ ["unsub"; "unsubscribe"; "rm"]) then CmdUnsub
  else if bool_decide (w ∈ ["list"; "show"; "subs"]) then CmdList
  else if bool_decide (w ∈ ["update"]) then CmdUpdate
  else CmdHelp.

Definition helpText : string :=
  "Hello" ++ nl ++ "I'm RSS Subs" ++ nl ++ "here's what I can do:" ++ nl ++ nl ++
  "sub <url>: subscribe to rss feed @ url" ++ nl ++
  "unsub <url>: unsubscribe to rss feed @url" ++ nl ++
  "subs: show subscriptions" ++ nl ++ "help: show this message".

(** What handling one update ends in. *)
Record Handled := { newState : ServerState; reply : MessageConfig; startsUpdate : bool }.

Inductive Outcome :=
  | Ignored
  | Panicked
  | Replied (r : Handled).

(** The adds started for the arguments of [sub]; their errors go nowhere. *)
Definition addAll (parse : Parser) (urls : list string) (cid : Z) (f : Feeds) : Feeds :=
  foldl (fun f u => (Feeds_Add parse u cid f).2) f urls.

Definition replyTo (cid : Z) (st : ServerState) (txt : string) (upd : bool) : Outcome :=
  Replied {| newState := st; reply := {| ChatID := cid; Text := txt |}; startsUpdate := upd |}.

(** The body of the loop of [Server.Respond]; [range] is the order in which
    the registry is ranged over. *)
Definition Respond (ToLower : string -> string) (Fields : string -> list string)
    (range : Feeds -> list (string * Feed)) (parse : Parser)
    (m : option tapi.Message) (st : ServerState) : Outcome :=
  match m with
  | None => Ignored
  | Some msg =>
      match Fields (tapi.Text msg) with
      | [] => Ignored
      | w :: args =>
          let cid := tapi.Chat msg in
          match classify (TrimPrefix (ToLower w) "/") with
          | CmdSub =>
              match args with
              | [] => replyTo cid st "Please provide a url to subscribe to" false
              | _ :: _ =>
                  replyTo cid
                    {| feeds := addAll parse args cid (feeds st);
                       seens := CheckSeen cid (seens st) |}
                    ("Subscribed to " ++ Itoa (length args) ++ " feeds") false
              end
          | CmdUnsub =>
              match args with
              | [] => replyTo cid st "Please provide a url to unsubscribe from" false
              | u :: _ =>
                  let r := Feeds_Rm ToLower (range (feeds st)) u (Join args " ") cid (feeds st) in
                  replyTo cid {| feeds := r.2; seens := seens st |}
                    (match r.1 with
                     | None => "Unsubscribed from " ++ u
                     | Some e => "Error unsubscribing from " ++ u ++ ": " ++ e
                     end) false
              end
          | CmdList =>
              replyTo cid st
                ("You are subscribed to:" ++ nl ++ nl ++
                 Join (Feeds_List (range (feeds st)) cid) nl) false
          | CmdUpdate =>
              match tapi.From msg with
              | None => Panicked
              | Some user =>
                  if String.eqb user "seankhliao" then replyTo cid st "update started" true
                  else replyTo cid st (user ++ " is not authorized to update") false
              end
          | CmdHelp => replyTo cid st helpText false
          end
      end
  end.

(** The earlier revision: the switch lists the words with and without the
    slash, [update] asks for no user name, and the help text names [list]. *)
Module Rev0Respond.

Definition classify (w : string) : Command :=
  if bool_decide (w ∈ ["sub"; "/sub"; "subscribe"; "/subscribe"; "add"; "/add"]) then CmdSub
  else if bool_decide (w ∈ ["unsub"; "/unsub"; "unsubscribe"; "/unsubscribe"; "rm"; "/rm"])
  then CmdUnsub
  else if bool_decide (w ∈ ["list"; "/list"; "show"; "/show"]) then CmdList
  else if bool_decide (w ∈ ["update"; "/update"]) then CmdUpdate
  else CmdHelp.

Definition helpText : string :=
  "Hello" ++ nl ++ "I'm RSS Subs" ++ nl ++ "here's what I can do:" ++ nl ++ nl ++
  "sub <url>: subscribe to rss feed @ url" ++ nl ++
  "unsub <url>: unsubscribe to rss feed @url" ++ nl ++
  "list: show subscriptions" ++ nl ++ "help: show this message".

Definition Respond (ToLower : string -> string) (Fields : string -> list string)
    (range : Feeds -> list (string * Feed)) (parse : Parser)
    (m : option tapi.Message) (st : ServerState) : Outcome :=
  match m with
  | None => Ignored
  | Some msg =>
      match Fields (tapi.Text msg) with
      | [] => Ignored
      | w :: args =>
          let cid := tapi.Chat msg in
          match classify (ToLower w) with
          | CmdSub =>
              match args with
              | [] => replyTo cid st "Please provide a url to subscribe to" false
              | _ :: _ =>
                  replyTo cid
                    {| feeds := addAll parse args cid (feeds st);
                       seens := CheckSeen cid (seens st) |}
                    ("Subscribed to " ++ Itoa (length args) ++ " feeds") false
              end
          | CmdUnsub =>
              match args with
              | [] => replyTo cid st "Please provide a url to unsubscribe from" false
              | u :: _ =>
                  let r := Feeds_Rm ToLower (range (feeds st)) u (Join args " ") cid (feeds st) in
                  replyTo cid {| feeds := r.2; seens := seens st |}
                    (match r.1 with
                     | None => "Unsubscribed from " ++ u
                     | Some e => "Error unsubscribing from " ++ u ++ ": " ++ e
                     end) false
              end
          | CmdList =>
              replyTo cid st
                ("You are subscribed to:" ++ nl ++ nl ++
                 Join (Feeds_List (range (feeds st)) cid) nl) false
          | CmdUpdate => replyTo cid st "update started" true
          | CmdHelp => replyTo cid st helpText false
          end
      end
  end.

End Rev0Respond.

(** The loop over the items in the earlier revision. *)
Fixpoint scanItems0 (ts : ArticleKey) (cid : Z) (st : Seens * list h) (items : list gofeed.Item)
  : option (Seens * list h) :=
  match items with
  | [] => Some st
  | i :: rest => st' ← scanItem0 ts cid st i; scanItems0 ts cid st' rest
  end.

(** The subscribers of a url, none for a url that is no key. *)
Definition chatsOf (f : Feeds) (url : string) : gset Z :=
  match f !! url with
  | Some feed => Chats feed
  | None => ∅
  end.

(** The feed that [parse] returns for [url] is [feed]. *)
Definition parsed (parse : Parser) (url : string) (feed : gofeed.Feed) : Prop :=
  parse url = inr feed.

(** Every item of every feed that parses has a timestamp. *)
Definition allTimestamped (parse : Parser) : Prop :=
  forall url feed, parsed parse url feed -> Forall hasTimestamp (gofeed.Items feed).

(** [k] is the key of an item of a feed of [order] that parses and that
    [cid] is a chat of. *)
Definition offered (parse : Parser) (order : list (string * list Z)) (cid : Z)
    (k : ArticleKey) : Prop :=
  exists url chats feed,
    (url, chats) ∈ order /\ parsed parse url feed /\ cid ∈ chats /\
    k ∈ keysOfItems (gofeed.Items feed).

(** The chat and the key of a delivery. *)
Definition delivered (d : Z * h) : Z * ArticleKey := (d.1, a d.2).

(** Messages of chat 2 for the examples. *)
Definition subMessage : tapi.Message :=
  {| tapi.Text := "/Sub http://b.test/rss http://c.test/rss";
     tapi.Chat := 2;
     tapi.From := Some "alice" |}.

Definition unsubMessage : tapi.Message :=
  {| tapi.Text := "rm http://a.test/rss tech";
     tapi.Chat := 2;
     tapi.From := Some "alice" |}.

(** * Properties *)

(** ** Article identity *)

Example format_epoch :
  FormatRFC3339 {| unixSec := 0; nsec := 0; loc := UTC |} = "1970-01-01T00:00:00Z".
Proof. reflexivity. Qed.

Example format_leap_day :
  FormatRFC3339 {| unixSec := 951827696; nsec := 7; loc := FixedZone (-19800) |}
  = "2000-02-29T07:04:56-05:30".
Proof. reflexivity. Qed.

Example format_2019 :
  FormatRFC3339 {| unixSec := 1577836799; nsec := 0; loc := FixedZone 3600 |}
  = "2020-01-01T00:59:59+01:00".
Proof. reflexivity. Qed.

Example format_year_one :
  FormatRFC3339 {| unixSec := -62135596800; nsec := 0; loc := UTC |} = "0001-01-01T00:00:00Z".
Proof. reflexivity. Qed.

Example format_year_10000 :
  FormatRFC3339 {| unixSec := 253402300800; nsec := 0; loc := UTC |} = "10000-01-01T00:00:00Z".
Proof. reflexivity. Qed.

(** The same instant presented in two zones has two keys. *)
Example same_instant_two_zones :
  let t1 := {| unixSec := 1577836800; nsec := 0; loc := UTC |} in
  let t2 := {| unixSec := 1577836800; nsec := 0; loc := FixedZone 3600 |} in
  Equal t1 t2 = true /\
  NewArticleKey "a" (Some t1) None = Some "2020-01-01T00:00:00Z-a" /\
  NewArticleKey "a" (Some t2) None = Some "2020-01-01T01:00:00+01:00-a".
Proof. vm_compute. repeat split. Qed.

Lemma NewArticleKey_eq title ts up :
  NewArticleKey title ts up =
  (fun t => FormatRFC3339 t ++ "-" ++ title) <$> effectiveTimestamp ts up.
Proof. unfold NewArticleKey, effectiveTimestamp. by destruct up, ts. Qed.

Lemma effectiveTimestamp_updated ts u : effectiveTimestamp ts (Some u) = Some u.
Proof. done. Qed.

Lemma effectiveTimestamp_published ts : effectiveTimestamp ts None = ts.
Proof. done. Qed.

(** C5: the key is a function of the title and of the effective timestamp
    (the updated time when present, otherwise the published time): two calls
    with the same title and the same effective timestamp return the same
    key, whichever of the two arguments carried the timestamp. *)
Theorem NewArticleKey_function_of_effective title ts1 up1 ts2 up2 :
  effectiveTimestamp ts1 up1 = effectiveTimestamp ts2 up2 ->
  NewArticleKey title ts1 up1 = NewArticleKey title ts2 up2.
Proof. intros E. by rewrite !NewArticleKey_eq, E. Qed.

Lemma NewArticleKey_function_of_effective_witness :
  let t := {| unixSec := 1577836800; nsec := 0; loc := UTC |} in
  let t' := {| unixSec := 5; nsec := 0; loc := UTC |} in
  NewArticleKey "Release notes" (Some t) None
  = NewArticleKey "Release notes" (Some t') (Some t).
Proof.
  intros t t'.
  apply (NewArticleKey_function_of_effective "Release notes" (Some t) None (Some t') (Some t)).
  reflexivity.
Defined.

(** C9: a key is returned exactly when a timestamp is present; with both
    absent the call ends in the nil dereference. *)
Theorem NewArticleKey_total_iff title ts up :
  is_Some (NewArticleKey title ts up) <-> (is_Some ts \/ is_Some up).
Proof.
  rewrite NewArticleKey_eq, fmap_is_Some. unfold effectiveTimestamp.
  destruct up as [u|], ts as [t|]; split; intros H; eauto.
  - destruct H as [H|H]; by apply is_Some_None in H.
Qed.

Lemma NewArticleKey_nil title : NewArticleKey title None None = None.
Proof. done. Qed.

(** ** Seen-set store *)

Lemma seenAt_insert_eq (s : Seens) cid us : seenAt (<[cid := us]> s) cid = us.
Proof. unfold seenAt. by rewrite lookup_insert_eq. Qed.

Lemma seenAt_insert_ne (s : Seens) cid cid' us :
  cid ≠ cid' -> seenAt (<[cid := us]> s) cid' = seenAt s cid'.
Proof. intros. unfold seenAt. by rewrite lookup_insert_ne. Qed.

Lemma hasKey_keysOf s cid k : hasKey (seenAt s cid) k = bool_decide (k ∈ keysOf s cid).
Proof.
  unfold keysOf. destruct (seenAt s cid) as [m|]; simpl; [done|].
  symmetry. apply bool_decide_eq_false. set_solver.
Qed.

Lemma MarkSeen_result cid k s : (MarkSeen cid k s).1 = hasKey (seenAt s cid) k.
Proof.
  unfold MarkSeen. destruct (seenAt s cid) as [m|] eqn:E.
  - rewrite E. simpl. by destruct (bool_decide (k ∈ m)).
  - rewrite seenAt_insert_eq. simpl.
    rewrite bool_decide_eq_false_2 by set_solver. done.
Qed.

Lemma MarkSeen_keys cid k s : keysOf (MarkSeen cid k s).2 cid = {[k]} ∪ keysOf s cid.
Proof.
  unfold MarkSeen, keysOf. destruct (seenAt s cid) as [m|] eqn:E.
  - rewrite E. destruct (bool_decide (k ∈ m)) eqn:B; simpl.
    + rewrite E. simpl. apply bool_decide_eq_true in B. set_solver.
    + by rewrite seenAt_insert_eq.
  - rewrite seenAt_insert_eq.
    rewrite bool_decide_eq_false_2 by set_solver. simpl.
    by rewrite seenAt_insert_eq.
Qed.

Lemma MarkSeen_other cid cid' k s :
  cid ≠ cid' -> keysOf (MarkSeen cid k s).2 cid' = keysOf s cid'.
Proof.
  intros Hne. unfold MarkSeen, keysOf. destruct (seenAt s cid) as [m|] eqn:E.
  - rewrite E. destruct (bool_decide (k ∈ m)); simpl; [done|].
    by rewrite seenAt_insert_ne.
  - rewrite seenAt_insert_eq.
    rewrite bool_decide_eq_false_2 by set_solver. simpl.
    by rewrite !seenAt_insert_ne.
Qed.

(** C2: [MarkSeen] returns the membership before the call and leaves the
    key a member; called twice on a state where the key is unseen it returns
    false, then true, and the second call changes nothing. *)
Theorem MarkSeen_gate cid k s :
  (MarkSeen cid k s).1 = bool_decide (k ∈ keysOf s cid) /\
  keysOf (MarkSeen cid k s).2 cid = {[k]} ∪ keysOf s cid /\
  (k ∉ keysOf s cid ->
   (MarkSeen cid k s).1 = false /\
   (MarkSeen cid k (MarkSeen cid k s).2).1 = true /\
   k ∈ keysOf (MarkSeen cid k (MarkSeen cid k s).2).2 cid /\
   keysOf (MarkSeen cid k (MarkSeen cid k s).2).2 cid = keysOf (MarkSeen cid k s).2 cid).
Proof.
  rewrite MarkSeen_result, hasKey_keysOf. split; [done|].
  split; [apply MarkSeen_keys|]. intros Hk.
  rewrite !MarkSeen_result, !hasKey_keysOf, !MarkSeen_keys.
  split; [by apply bool_decide_eq_false|].
  split; [apply bool_decide_eq_true; set_solver|].
  split; set_solver.
Qed.

Lemma MarkSeen_gate_witness :
  (MarkSeen 7 "2020-01-01T00:00:00Z-a" NewSeens).1 = false /\
  (MarkSeen 7 "2020-01-01T00:00:00Z-a"
     (MarkSeen 7 "2020-01-01T00:00:00Z-a" NewSeens).2).1 = true.
Proof.
  destruct (MarkSeen_gate 7 "2020-01-01T00:00:00Z-a" NewSeens) as (_ & _ & H).
  destruct H as (H1 & H2 & _); [vm_compute; set_solver|].
  exact (conj H1 H2).
Defined.

(** The gate of the earlier revision, [Seen] then [Mark], is [MarkSeen] on a
    channel whose map was made; on a nil map [Mark] panics. *)
Lemma Rev0_gate_made cid k s m :
  seenAt s cid = Some m ->
  Rev0.SeenSeen (seenAt s cid) k = (MarkSeen cid k s).1 /\
  (Rev0.SeenSeen (seenAt s cid) k = false ->
   exists us, Rev0.Mark (seenAt s cid) k = Some us /\ <[cid := us]> s = (MarkSeen cid k s).2).
Proof.
  intros E. split; [by rewrite MarkSeen_result|].
  unfold Rev0.SeenSeen, Rev0.Mark, MarkSeen. rewrite E. simpl. rewrite E.
  intros ->. eexists. split; done.
Qed.

Lemma Rev0_Mark_nil k : Rev0.Mark None k = None.
Proof. done. Qed.

Lemma scanItem0_made ts cid st i m :
  seenAt st.1 cid = Some m -> scanItem0 ts cid st i = scanItem ts cid st i.
Proof.
  intros E. unfold scanItem0, scanItem. destruct (keyOf i) as [k|]; [|done]. simpl.
  destruct (Rev0_gate_made cid k st.1 m E) as [Hs Hm].
  destruct (MarkSeen cid k st.1) as [seen s'] eqn:EM. simpl in *.
  rewrite Hs. destruct seen; simpl.
  - destruct st as [s q]. simpl in *. f_equal. f_equal.
    unfold MarkSeen in EM. rewrite E in EM. simpl in EM. rewrite E in EM.
    destruct (bool_decide (k ∈ m)); by simplify_eq.
  - destruct (Hm Hs) as (us & -> & <-). done.
Qed.

Lemma scanItem0_nil_panics ts cid st i k :
  seenAt st.1 cid = None -> keyOf i = Some k -> scanItem0 ts cid st i = None.
Proof. intros E Hk. unfold scanItem0. by rewrite Hk, E. Qed.

(** ** Subscription registry *)

Lemma rangesOver_elem f order u feed :
  rangesOver f order -> (u, feed) ∈ order <-> f !! u = Some feed.
Proof. intros H. unfold rangesOver in H. rewrite H. apply elem_of_map_to_list. Qed.

Lemma rangesOver_nil f : rangesOver f [] -> f = ∅.
Proof.
  unfold rangesOver. intros H. symmetry in H.
  apply Permutation_nil_r in H. by apply map_to_list_empty_iff.
Qed.

Lemma Feeds_New_fails parse url f err :
  parse url = inl err -> Feeds_New parse url f = (Some ("gofeed parse " ++ err), f).
Proof. intros H. unfold Feeds_New. by rewrite H. Qed.

(** C6: [Add] of a url that is no key of the registry and fails to parse
    returns an error and leaves the registry as it was. *)
Theorem Feeds_Add_fetch_fails parse url cid f err :
  f !! url = None ->
  parse url = inl err ->
  Feeds_Add parse url cid f = (Some ("feeds add " ++ ("gofeed parse " ++ err)), f).
Proof.
  intros Hnew Hfail. unfold Feeds_Add.
  by rewrite Hnew, (Feeds_New_fails _ _ _ _ Hfail).
Qed.

Lemma Feeds_Add_fetch_fails_witness :
  Feeds_Add (fun _ => inl "no such host") "http://x.test/rss" 5
    (<["http://a.test/rss" := NewFeed "A"]> NewFeeds)
  = (Some "feeds add gofeed parse no such host",
     <["http://a.test/rss" := NewFeed "A"]> NewFeeds).
Proof.
  apply (Feeds_Add_fetch_fails (fun _ => inl "no such host") "http://x.test/rss" 5
           (<["http://a.test/rss" := NewFeed "A"]> NewFeeds) "no such host").
  - vm_compute. reflexivity.
  - reflexivity.
Defined.

Lemma prefix_empty s : String.prefix "" s = true.
Proof. by destruct s. Qed.

Lemma Contains_empty s : Contains s "" = true.
Proof. destruct s; simpl; [done|]. done. Qed.


Lemma find_none_iff {A} (P : A -> bool) l :
  List.find P l = None <-> Forall (fun y => P y = false) l.
Proof.
  induction l as [|y l IH]; simpl.
  - split; [constructor|done].
  - destruct (P y) eqn:E.
    + split; [done|]. intros H. inversion H; congruence.
    + rewrite IH. split; [by constructor|]. by inversion 1.
Qed.

Lemma exactMatch_bool f url :
  bool_decide (url ≠ "") && bool_decide (is_Some (f !! url)) = true <-> exactMatch f url.
Proof.
  unfold exactMatch. rewrite andb_true_iff, !bool_decide_eq_true. done.
Qed.

Lemma Feeds_Rm_exact ToLower order url title cid f :
  exactMatch f url ->
  Feeds_Rm ToLower order url title cid f = (None, alter (Feed_Rm cid) url f).
Proof.
  intros H. unfold Feeds_Rm. apply exactMatch_bool in H. by rewrite H.
Qed.

Lemma Feeds_Rm_fallback ToLower order url title cid f :
  ¬ exactMatch f url ->
  Feeds_Rm ToLower order url title cid f =
  match List.find (titleMatches ToLower title) order with
  | Some (u, _) => (None, alter (Feed_Rm cid) u f)
  | None => (Some "No matching subscription found", f)
  end.
Proof.
  intros H. unfold Feeds_Rm.
  destruct (bool_decide (url ≠ "") && bool_decide (is_Some (f !! url))) eqn:E.
  - by apply exactMatch_bool in E.
  - done.
Qed.

(** What [f[u].Rm(cid)] leaves in the registry. *)
Lemma alter_Feed_Rm_lookup (f : Feeds) u cid feed :
  f !! u = Some feed ->
  alter (Feed_Rm cid) u f !! u = Some {| Chats := Chats feed ∖ {[cid]}; Title := Title feed |} /\
  forall u', u' ≠ u -> alter (Feed_Rm cid) u f !! u' = f !! u'.
Proof.
  intros H. split.
  - by rewrite lookup_alter_eq, H.
  - intros u' Hne. by rewrite lookup_alter_ne.
Qed.




(** C10: with the empty query every title matches, so on a non-empty
    registry [Rm] with a url that is no key removes the channel from the
    first feed ranged over and returns no error; the error of the title
    search needs an empty registry or a non-empty query. *)
Theorem Feeds_Rm_empty_query ToLower order url cid f :
  ToLower "" = "" ->
  rangesOver f order ->
  (f ≠ ∅ -> f !! url = None ->
   exists u feed rest,
     order = (u, feed) :: rest /\ f !! u = Some feed /\
     Feeds_Rm ToLower order url "" cid f = (None, alter (Feed_Rm cid) u f) /\
     cid ∉ Chats (default feed (alter (Feed_Rm cid) u f !! u))) /\
  (forall title, is_Some (Feeds_Rm ToLower order url title cid f).1 -> f = ∅ \/ title ≠ "").
Proof.
  intros Hlow Hord.
  assert (Hhead : forall u feed rest, order = (u, feed) :: rest ->
            List.find (titleMatches ToLower "") order = Some (u, feed)).
  { intros u feed rest ->. simpl. unfold titleMatches. simpl.
    by rewrite Hlow, Contains_empty. }
  split.
  - intros Hne Hnokey. destruct order as [|[u feed] rest].
    { by apply rangesOver_nil in Hord. }
    exists u, feed, rest. split; [done|].
    assert (Hu : f !! u = Some feed).
    { apply (rangesOver_elem _ _ _ _ Hord). set_solver. }
    split; [done|]. split.
    + rewrite Feeds_Rm_fallback.
      * by rewrite (Hhead u feed rest).
      * intros [_ [x Hx]]. congruence.
    + rewrite lookup_alter_eq, Hu. simpl. set_solver.
  - intros title Herr. destruct (decide (title = "")) as [->|]; [|by right]. left.
    destruct (decide (exactMatch f url)) as [He|Hne].
    { rewrite Feeds_Rm_exact in Herr by done. by apply is_Some_None in Herr. }
    rewrite Feeds_Rm_fallback in Herr by done.
    destruct order as [|[u feed] rest]; [by apply rangesOver_nil|].
    rewrite (Hhead u feed rest) in Herr by done. by apply is_Some_None in Herr.
Qed.

Lemma Feeds_Rm_empty_query_witness :
  ToLowerASCII "" = "" /\
  rangesOver exampleFeeds (map_to_list exampleFeeds) /\
  exampleFeeds ≠ ∅ /\
  exampleFeeds !! "nokey" = None /\
  exists u feed rest,
    map_to_list exampleFeeds = (u, feed) :: rest /\ exampleFeeds !! u = Some feed /\
    Feeds_Rm ToLowerASCII (map_to_list exampleFeeds) "nokey" "" 1 exampleFeeds
    = (None, alter (Feed_Rm 1) u exampleFeeds) /\
    1 ∉ Chats (default feed (alter (Feed_Rm 1) u exampleFeeds !! u)).
Proof.
  assert (Hne : exampleFeeds ≠ ∅).
  { intros E. apply (f_equal (fun m : Feeds => m !! "http://a.test/rss")) in E.
    vm_compute in E. discriminate E. }
  assert (Hkey : exampleFeeds !! "nokey" = None) by (vm_compute; reflexivity).
  assert (Hord : rangesOver exampleFeeds (map_to_list exampleFeeds))
    by (unfold rangesOver; reflexivity).
  split; [reflexivity|]. split; [exact Hord|]. split; [exact Hne|]. split; [exact Hkey|].
  exact (proj1 (Feeds_Rm_empty_query ToLowerASCII (map_to_list exampleFeeds) "nokey" 1
                  exampleFeeds eq_refl Hord) Hne Hkey).
Defined.

(** ** The calendar of [Format] *)

Ltac euclid := Z.to_euclidean_division_equations; lia.

(** The year and the day of the year grow with the day number. *)
Lemma absDate_mono d d' :
  d < d' ->
  (absDate d).1 < (absDate d').1 \/
  ((absDate d).1 = (absDate d').1 /\ (absDate d).2 < (absDate d').2).
Proof. intros H. unfold absDate. cbn [fst snd]. euclid. Qed.

Lemma absDate_mono_le d d' : d <= d' -> (absDate d).1 <= (absDate d').1.
Proof.
  intros H. destruct (decide (d = d')) as [->|Hne]; [lia|].
  destruct (absDate_mono d d'); lia.
Qed.

Lemma isLeap_cycles n1 n2 n3 n4 :
  0 <= n2 <= 3 -> 0 <= n3 <= 24 -> 0 <= n4 <= 3 ->
  isLeap (400 * n1 + 100 * n2 + 4 * n3 + n4 + 1)
  = (n4 =? 3) && (negb (n3 =? 24) || (n2 =? 3)).
Proof.
  intros H2 H3 H4. unfold isLeap.
  replace ((400 * n1 + 100 * n2 + 4 * n3 + n4 + 1) mod 4) with ((n4 + 1) mod 4).
  2:{ rewrite <- (Z.mod_add (n4 + 1) (100 * n1 + 25 * n2 + n3) 4) by lia. f_equal. lia. }
  replace ((400 * n1 + 100 * n2 + 4 * n3 + n4 + 1) mod 100)
    with ((4 * n3 + n4 + 1) mod 100).
  2:{ rewrite <- (Z.mod_add (4 * n3 + n4 + 1) (4 * n1 + n2) 100) by lia. f_equal. lia. }
  replace ((400 * n1 + 100 * n2 + 4 * n3 + n4 + 1) mod 400)
    with ((100 * n2 + 4 * n3 + n4 + 1) mod 400).
  2:{ rewrite <- (Z.mod_add (100 * n2 + 4 * n3 + n4 + 1) n1 400) by lia. f_equal. lia. }
  destruct (Z.eqb_spec n4 3) as [->|E4].
  - replace ((3 + 1) mod 4) with 0 by done. cbn [Z.eqb andb].
    destruct (Z.eqb_spec n3 24) as [->|E3].
    + replace ((4 * 24 + 3 + 1) mod 100) with 0 by done. cbn [Z.eqb negb orb].
      destruct (Z.eqb_spec n2 3) as [->|E2]; [done|].
      apply Z.eqb_neq. euclid.
    + cbn [negb orb]. replace ((4 * n3 + 3 + 1) mod 100 =? 0) with false; [done|].
      symmetry. apply Z.eqb_neq. euclid.
  - replace ((n4 + 1) mod 4 =? 0) with false; [done|].
    symmetry. apply Z.eqb_neq. euclid.
Qed.

(** The day of the year stays within the year. *)
Lemma absDate_yday d :
  0 <= (absDate d).2 < (if isLeap (absDate d).1 then 366 else 365).
Proof.
  unfold absDate. cbn [fst snd].
  set (n1 := d / 146097). set (d1 := d - 146097 * n1).
  set (n2 := d1 / 36524 - d1 / 36524 / 4). set (d2 := d1 - 36524 * n2).
  set (n3 := d2 / 1461). set (d3 := d2 - 1461 * n3).
  set (n4 := d3 / 365 - d3 / 365 / 4). set (d4 := d3 - 365 * n4).
  assert (H1 : 0 <= d1 < 146097) by (subst d1 n1; euclid).
  assert (H2 : 0 <= n2 <= 3 /\ 0 <= d2 /\ (d2 < 36524 \/ n2 = 3 /\ d2 = 36524)).
  { subst d2 n2. clearbody d1. euclid. }
  assert (H3 : 0 <= n3 <= 24 /\ 0 <= d3 < 1461 /\
               (n3 = 24 -> d3 < 1460 \/ n2 = 3 /\ d3 = 1460)).
  { subst d3 n3. clearbody d2 n2. euclid. }
  assert (H4 : 0 <= n4 <= 3 /\ 0 <= d4 /\ (d4 < 365 \/ n4 = 3 /\ d4 = 365 /\ d3 = 1460)).
  { subst d4 n4. clearbody d3. euclid. }
  clearbody d4 n4 d3 n3 d2 n2 d1 n1.
  rewrite isLeap_cycles by lia.
  destruct (Z.eqb_spec n4 3), (Z.eqb_spec n3 24), (Z.eqb_spec n2 3);
    cbn [andb orb negb]; lia.
Qed.

Lemma allBelow_spec n P :
  allBelow n P = true -> forall z, 0 <= z < Z.of_nat n -> P z = true.
Proof.
  induction n as [|n IH]; intros H z Hz; [lia|].
  simpl in H. apply andb_true_iff in H as [Hn Hrest].
  destruct (decide (z = Z.of_nat n)) as [->|Hne]; [done|].
  apply IH; [done|lia].
Qed.

Lemma monthDay_checked :
  allBelow 366 (monthDayInRange true) && allBelow 365 (monthDayInRange false) &&
  allBelow 365 (monthDayStep true) && allBelow 364 (monthDayStep false) = true.
Proof. vm_compute. reflexivity. Qed.

Lemma monthDay_checked_parts :
  allBelow 366 (monthDayInRange true) = true /\
  allBelow 365 (monthDayInRange false) = true /\
  allBelow 365 (monthDayStep true) = true /\
  allBelow 364 (monthDayStep false) = true.
Proof.
  pose proof monthDay_checked as C.
  apply andb_true_iff in C as [C C4]. apply andb_true_iff in C as [C C3].
  apply andb_true_iff in C as [C1 C2]. exact (conj C1 (conj C2 (conj C3 C4))).
Qed.

Lemma monthDay_range leap yd :
  0 <= yd < yearLength leap ->
  1 <= (monthDay leap yd).1 <= 12 /\ 1 <= (monthDay leap yd).2 <= 31.
Proof.
  intros H. destruct monthDay_checked_parts as (C1 & C2 & _ & _).
  assert (monthDayInRange leap yd = true) as R.
  { destruct leap; unfold yearLength in H.
    - apply (allBelow_spec 366 _ C1). lia.
    - apply (allBelow_spec 365 _ C2). lia. }
  unfold monthDayInRange in R. lia.
Qed.

Lemma pairLt_trans p q r : pairLt p q = true -> pairLt q r = true -> pairLt p r = true.
Proof. unfold pairLt. lia. Qed.

Lemma monthDay_step leap yd :
  0 <= yd -> yd + 1 < yearLength leap -> monthDayStep leap yd = true.
Proof.
  intros H0 H1. destruct monthDay_checked_parts as (_ & _ & C3 & C4).
  destruct leap; unfold yearLength in H1.
  - apply (allBelow_spec 365 _ C3). lia.
  - apply (allBelow_spec 364 _ C4). lia.
Qed.

Lemma monthDay_mono leap yd yd' :
  0 <= yd -> yd < yd' -> yd' < yearLength leap ->
  pairLt (monthDay leap yd) (monthDay leap yd') = true.
Proof.
  intros H0 Hlt Hup.
  replace yd' with (yd + 1 + Z.of_nat (Z.to_nat (yd' - yd - 1))) in * by lia.
  generalize dependent (Z.to_nat (yd' - yd - 1)). intros n _ Hup.
  induction n as [|n IH].
  - replace (yd + 1 + Z.of_nat 0) with (yd + 1) in * by lia.
    apply monthDay_step; lia.
  - eapply pairLt_trans; [apply IH; lia|].
    replace (yd + 1 + Z.of_nat (S n)) with (yd + 1 + Z.of_nat n + 1) by lia.
    apply monthDay_step; lia.
Qed.

Lemma lexCompare_Lt_l c : lexCompare Lt c = Lt.
Proof. done. Qed.

(** The clock grows with the local second it is computed from. *)
Lemma clockOfLocal_mono s s' :
  s < s' -> clockCompare (clockOfLocal s) (clockOfLocal s') = Lt.
Proof.
  intros Hlt. unfold clockCompare, clockOfLocal.
  set (dn := s / 86400 + unixEpochDay). set (dn' := s' / 86400 + unixEpochDay).
  pose proof (absDate_yday dn) as Y. pose proof (absDate_yday dn') as Y'.
  assert (dn < dn' \/ dn = dn' /\ s mod 86400 < s' mod 86400) as [Hd|[Hd Hs]]
    by (subst dn dn'; euclid).
  - pose proof (absDate_mono dn dn' Hd) as M.
    destruct (absDate dn) as [y yd], (absDate dn') as [y' yd']. cbn [fst snd] in *.
    pose proof (monthDay_range (isLeap y) yd Y) as R.
    pose proof (monthDay_range (isLeap y') yd' Y') as R'.
    destruct M as [M|[-> M]].
    + destruct (monthDay (isLeap y) yd), (monthDay (isLeap y') yd'). cbn.
      by apply Z.compare_lt_iff in M as ->.
    + pose proof (monthDay_mono (isLeap y') yd yd' (proj1 Y) M (proj2 Y')) as P.
      destruct (monthDay (isLeap y') yd) as [m d], (monthDay (isLeap y') yd') as [m' d'].
      cbn [year month day hour minute second]. rewrite Z.compare_refl. cbn [lexCompare].
      unfold pairLt in P. cbn [fst snd] in P.
      destruct (Z.compare_spec m m') as [->|?|?]; cbn [lexCompare]; [|done|lia].
      assert (d < d') as ->%Z.compare_lt_iff by lia. done.
  - rewrite <- Hd. destruct (absDate dn) as [y yd].
    destruct (monthDay (isLeap y) yd) as [m d].
    cbn [year month day hour minute second]. rewrite !Z.compare_refl. cbn [lexCompare].
    set (r := s mod 86400) in *. set (r' := s' mod 86400) in *.
    assert (0 <= r < 86400 /\ 0 <= r' < 86400) as [? ?] by (subst r r'; euclid).
    clearbody r r'.
    destruct (Z.compare_spec (r / 3600) (r' / 3600)) as [E1|?|?];
      cbn [lexCompare]; [|done|euclid].
    destruct (Z.compare_spec (r mod 3600 / 60) (r' mod 3600 / 60)) as [E2|?|?];
      cbn [lexCompare]; [|done|euclid].
    apply Z.compare_lt_iff. euclid.
Qed.

(** The ranges of the fields of a clock. *)
Lemma clockOfLocal_range s :
  let c := clockOfLocal s in
  1 <= month c <= 12 /\ 1 <= day c <= 31 /\
  0 <= hour c < 24 /\ 0 <= minute c < 60 /\ 0 <= second c < 60.
Proof.
  unfold clockOfLocal.
  pose proof (absDate_yday (s / 86400 + unixEpochDay)) as Y.
  destruct (absDate _) as [y yd]. cbn [fst snd] in Y.
  pose proof (monthDay_range (isLeap y) yd Y) as R.
  destruct (monthDay _ _) as [m d]. cbn [fst snd] in R.
  cbn [year month day hour minute second]. repeat split; try lia; euclid.
Qed.

Lemma clockOfLocal_year s : year (clockOfLocal s) = (absDate (s / 86400 + unixEpochDay)).1.
Proof.
  unfold clockOfLocal. destruct (absDate _) as [y yd].
  by destruct (monthDay _ _).
Qed.

Lemma clockOfLocal_fourDigitYear s :
  fourDigitYear s -> 0 <= year (clockOfLocal s) <= 9999.
Proof.
  intros [Hlo Hhi]. rewrite clockOfLocal_year. split.
  - etrans; [|apply (absDate_mono_le (-366))]; [done|]. unfold unixEpochDay. euclid.
  - etrans; [apply (absDate_mono_le _ 3652058)|]; [|done]. unfold unixEpochDay. euclid.
Qed.

(** ** Byte order of the formatted fields *)

Lemma digitChar_compare x y :
  0 <= x <= 9 -> 0 <= y <= 9 ->
  Ascii.compare (digitChar x) (digitChar y) = (x ?= y).
Proof.
  intros Hx Hy. unfold Ascii.compare, digitChar.
  rewrite !N_ascii_embedding by lia.
  destruct (Z.compare_spec x y), (N.compare_spec (48 + Z.to_N x) (48 + Z.to_N y));
    try done; lia.
Qed.

Lemma string_compare_refl s : String.compare s s = Eq.
Proof.
  induction s as [|c s IH]; simpl; [done|].
  unfold Ascii.compare. by rewrite N.compare_refl.
Qed.

Lemma string_compare_cons c1 c2 s1 s2 :
  String.compare (String c1 s1) (String c2 s2)
  = lexCompare (Ascii.compare c1 c2) (String.compare s1 s2).
Proof. simpl. by destruct (Ascii.compare c1 c2). Qed.

Lemma lexCompare_assoc c1 c2 c3 :
  lexCompare (lexCompare c1 c2) c3 = lexCompare c1 (lexCompare c2 c3).
Proof. by destruct c1. Qed.

Lemma lexCompare_Eq_r c : lexCompare c Eq = c.
Proof. by destruct c. Qed.

(** Two strings that start with parts of the same length compare part by
    part. *)
Lemma string_compare_app x y u v :
  String.length x = String.length y ->
  String.compare (x ++ u) (y ++ v)
  = lexCompare (String.compare x y) (String.compare u v).
Proof.
  revert y. induction x as [|c x IH]; intros [|d y] Hlen; simplify_eq/=; [done|].
  rewrite IH by done. by destruct (Ascii.compare c d).
Qed.

Lemma string_length_app x y :
  String.length (x ++ y) = (String.length x + String.length y)%nat.
Proof.
  induction x as [|c x IH]; simpl; [done|]. by rewrite IH.
Qed.

Lemma appendInt_2 x :
  0 <= x < 100 ->
  appendInt x 2 = String (digitChar (x / 10)) (String (digitChar (x mod 10)) "").
Proof.
  intros H. unfold appendInt.
  replace (x <? 0) with false by lia. rewrite Z.abs_eq by lia.
  replace (x <? 100) with true by lia. done.
Qed.

Lemma appendInt_4 x :
  0 <= x < 10000 ->
  appendInt x 4 =
  String (digitChar (x / 1000)) (String (digitChar (x / 100 mod 10))
    (String (digitChar (x / 10 mod 10)) (String (digitChar (x mod 10)) ""))).
Proof.
  intros H. unfold appendInt.
  replace (x <? 0) with false by lia. rewrite Z.abs_eq by lia.
  replace (x <? 10000) with true by lia. done.
Qed.

Lemma compare_tens x y :
  lexCompare (x / 10 ?= y / 10) (x mod 10 ?= y mod 10) = (x ?= y).
Proof.
  destruct (Z.compare_spec (x / 10) (y / 10)), (Z.compare_spec (x mod 10) (y mod 10)),
    (Z.compare_spec x y); simpl; try done; euclid.
Qed.

Lemma compare_hundreds x y :
  lexCompare (x / 100 ?= y / 100) (x mod 100 ?= y mod 100) = (x ?= y).
Proof.
  destruct (Z.compare_spec (x / 100) (y / 100)), (Z.compare_spec (x mod 100) (y mod 100)),
    (Z.compare_spec x y); simpl; try done; euclid.
Qed.

Lemma appendInt_2_compare x y :
  0 <= x < 100 -> 0 <= y < 100 ->
  String.compare (appendInt x 2) (appendInt y 2) = (x ?= y).
Proof.
  intros Hx Hy. rewrite !appendInt_2, !string_compare_cons by done.
  rewrite !digitChar_compare by euclid. simpl. rewrite lexCompare_Eq_r.
  apply compare_tens.
Qed.

Lemma appendInt_4_compare x y :
  0 <= x < 10000 -> 0 <= y < 10000 ->
  String.compare (appendInt x 4) (appendInt y 4) = (x ?= y).
Proof.
  intros Hx Hy. rewrite !appendInt_4, !string_compare_cons by done.
  rewrite !digitChar_compare by euclid. simpl. rewrite lexCompare_Eq_r.
  replace (x / 1000) with (x / 100 / 10) by euclid.
  replace (y / 1000) with (y / 100 / 10) by euclid.
  replace (x / 10 mod 10) with (x mod 100 / 10) by euclid.
  replace (y / 10 mod 10) with (y mod 100 / 10) by euclid.
  replace (x mod 10) with (x mod 100 mod 10) by euclid.
  replace (y mod 10) with (y mod 100 mod 10) by euclid.
  rewrite <- lexCompare_assoc, !compare_tens. apply compare_hundreds.
Qed.

Lemma appendInt_2_length x : 0 <= x < 100 -> String.length (appendInt x 2) = 2%nat.
Proof. intros H. by rewrite appendInt_2. Qed.

Lemma appendInt_4_length x : 0 <= x < 10000 -> String.length (appendInt x 4) = 4%nat.
Proof. intros H. by rewrite appendInt_4. Qed.

Lemma formatClock_length c : printable c -> String.length (formatClock c) = 19%nat.
Proof.
  intros (Hy & Hm & Hd & Hh & Hmi & Hs). unfold formatClock.
  rewrite !string_length_app, appendInt_4_length, !appendInt_2_length by lia. done.
Qed.

Lemma formatClock_compare c1 c2 :
  printable c1 -> printable c2 ->
  String.compare (formatClock c1) (formatClock c2) = clockCompare c1 c2.
Proof.
  intros (Hy & Hm & Hd & Hh & Hmi & Hs) (Hy' & Hm' & Hd' & Hh' & Hmi' & Hs').
  unfold formatClock, clockCompare.
  repeat (rewrite string_compare_app;
          [|rewrite ?appendInt_4_length, ?appendInt_2_length by lia; done]).
  rewrite appendInt_4_compare, !appendInt_2_compare by lia.
  rewrite !string_compare_refl. simpl. done.
Qed.

Lemma clockOfLocal_printable s : fourDigitYear s -> printable (clockOfLocal s).
Proof.
  intros H. split; [by apply clockOfLocal_fourDigitYear|]. apply clockOfLocal_range.
Qed.

(** Within one zone offset and the four-digit years, the byte order of the
    formatted timestamps is the order of their whole seconds. *)
Lemma FormatRFC3339_compare t1 t2 :
  offsetOf t1 = offsetOf t2 ->
  fourDigitYear (localSec t1) -> fourDigitYear (localSec t2) ->
  String.compare (FormatRFC3339 t1) (FormatRFC3339 t2) = (unixSec t1 ?= unixSec t2).
Proof.
  intros Hoff H1 H2. unfold FormatRFC3339, clock. rewrite Hoff.
  rewrite string_compare_app
    by (rewrite !formatClock_length by (by apply clockOfLocal_printable); done).
  rewrite string_compare_refl, lexCompare_Eq_r.
  rewrite formatClock_compare by (by apply clockOfLocal_printable).
  destruct (Z.compare_spec (unixSec t1) (unixSec t2)) as [E|L|G].
  - unfold localSec. rewrite Hoff, E.
    unfold clockCompare. by rewrite !Z.compare_refl.
  - apply clockOfLocal_mono. unfold localSec. lia.
  - assert (clockCompare (clockOfLocal (localSec t2)) (clockOfLocal (localSec t1)) = Lt) as C.
    { apply clockOfLocal_mono. unfold localSec. lia. }
    rewrite <- formatClock_compare in * by (by apply clockOfLocal_printable).
    rewrite String.compare_antisym, C. done.
Qed.

Lemma FormatRFC3339_length t :
  fourDigitYear (localSec t) ->
  String.length (FormatRFC3339 t) = (19 + String.length (formatZone (offsetOf t)))%nat.
Proof.
  intros H. unfold FormatRFC3339.
  rewrite string_length_app, formatClock_length; [done|].
  by apply clockOfLocal_printable.
Qed.

(** The keys of two timestamps of one zone offset compare by the second,
    then by the title. *)
Lemma key_compare title1 t1 title2 t2 :
  offsetOf t1 = offsetOf t2 ->
  fourDigitYear (localSec t1) -> fourDigitYear (localSec t2) ->
  String.compare (FormatRFC3339 t1 ++ "-" ++ title1) (FormatRFC3339 t2 ++ "-" ++ title2)
  = lexCompare (unixSec t1 ?= unixSec t2) (String.compare title1 title2).
Proof.
  intros Hoff H1 H2.
  rewrite string_compare_app by (rewrite !FormatRFC3339_length, Hoff by done; done).
  rewrite FormatRFC3339_compare by done.
  change ("-" ++ title1) with (String "-" title1).
  change ("-" ++ title2) with (String "-" title2).
  rewrite string_compare_cons. done.
Qed.

(** C4, as the code has it: for two timestamps printed with the same zone
    offset and a year from 0000 to 9999, the key of the one whose whole
    second is earlier compares strictly less, whatever the titles, and for
    equal whole seconds the keys compare as the titles do.  Fractions of a
    second are not part of the key. *)
Theorem key_order_chronological title1 ts1 up1 t1 k1 title2 ts2 up2 t2 k2 :
  effectiveTimestamp ts1 up1 = Some t1 ->
  effectiveTimestamp ts2 up2 = Some t2 ->
  NewArticleKey title1 ts1 up1 = Some k1 ->
  NewArticleKey title2 ts2 up2 = Some k2 ->
  offsetOf t1 = offsetOf t2 ->
  fourDigitYear (localSec t1) -> fourDigitYear (localSec t2) ->
  (unixSec t1 < unixSec t2 -> String.compare k1 k2 = Lt /\ keyLess k1 k2 = true) /\
  (unixSec t1 = unixSec t2 -> String.compare k1 k2 = String.compare title1 title2).
Proof.
  intros E1 E2 K1 K2 Hoff H1 H2.
  rewrite NewArticleKey_eq, E1 in K1. rewrite NewArticleKey_eq, E2 in K2.
  simplify_eq/=. unfold keyLess, String.ltb.
  rewrite key_compare by done. split.
  - intros ->%Z.compare_lt_iff. done.
  - intros ->. by rewrite Z.compare_refl.
Qed.

Lemma key_order_chronological_witness :
  let t1 := {| unixSec := 1577836800; nsec := 0; loc := UTC |} in
  let t2 := {| unixSec := 1577836801; nsec := 0; loc := UTC |} in
  String.compare "2020-01-01T00:00:00Z-zebra" "2020-01-01T00:00:01Z-apple" = Lt.
Proof.
  intros t1 t2.
  refine (proj1 (proj1 (key_order_chronological "zebra" (Some t1) None t1 _
            "apple" None (Some t2) t2 _ _ _ _ _ _ _ _) _)).
  - reflexivity.
  - reflexivity.
  - reflexivity.
  - reflexivity.
  - reflexivity.
  - unfold fourDigitYear. vm_compute. split; [discriminate|reflexivity].
  - unfold fourDigitYear. vm_compute. split; [discriminate|reflexivity].
  - vm_compute. reflexivity.
Defined.

(** The byte order of the keys is not the order of the instants: an
    instant a fraction of a second earlier has the same key, an earlier
    instant printed in a zone further east has the greater key, and so has
    the last second of the year 9999 against the first of the year 10000. *)
Lemma key_order_not_chronological :
  let t1 := {| unixSec := 1577836800; nsec := 0; loc := UTC |} in
  let t2 := {| unixSec := 1577836800; nsec := 500000000; loc := UTC |} in
  let t3 := {| unixSec := 1577804400; nsec := 0; loc := FixedZone 32400 |} in
  let t4 := {| unixSec := 1577822400; nsec := 0; loc := UTC |} in
  let t5 := {| unixSec := 253402300799; nsec := 0; loc := UTC |} in
  let t6 := {| unixSec := 253402300800; nsec := 0; loc := UTC |} in
  (Before t1 t2 = true /\
   NewArticleKey "a" (Some t1) None = Some "2020-01-01T00:00:00Z-a" /\
   NewArticleKey "a" (Some t2) None = Some "2020-01-01T00:00:00Z-a" /\
   keyLess "2020-01-01T00:00:00Z-a" "2020-01-01T00:00:00Z-a" = false) /\
  (Before t3 t4 = true /\
   NewArticleKey "a" (Some t3) None = Some "2020-01-01T00:00:00+09:00-a" /\
   NewArticleKey "a" (Some t4) None = Some "2019-12-31T20:00:00Z-a" /\
   keyLess "2020-01-01T00:00:00+09:00-a" "2019-12-31T20:00:00Z-a" = false) /\
  (Before t5 t6 = true /\
   NewArticleKey "a" (Some t5) None = Some "9999-12-31T23:59:59Z-a" /\
   NewArticleKey "a" (Some t6) None = Some "10000-01-01T00:00:00Z-a" /\
   keyLess "9999-12-31T23:59:59Z-a" "10000-01-01T00:00:00Z-a" = false).
Proof. vm_compute. repeat split. Qed.

(** ** The loop over the items of a feed *)

Lemma keyOf_hasTimestamp i : is_Some (keyOf i) <-> hasTimestamp i.
Proof. unfold keyOf, hasTimestamp. by rewrite NewArticleKey_eq, fmap_is_Some. Qed.

Lemma scanItem_eq ts cid st i k :
  keyOf i = Some k ->
  scanItem ts cid st i =
  Some ((MarkSeen cid k st.1).2,
        if bool_decide (k ∈ keysOf st.1 cid) then st.2
        else if keyLess ts k then (st.2 ++ [{| a := k; it := i |}])%list else st.2).
Proof.
  intros Hk. unfold scanItem. rewrite Hk. simpl.
  destruct (MarkSeen cid k st.1) as [seen s'] eqn:E.
  pose proof (MarkSeen_result cid k st.1) as R. rewrite E in R. simpl in R.
  rewrite hasKey_keysOf in R. rewrite R. simpl.
  by destruct (bool_decide _).
Qed.

(** The loop returns when every item has a timestamp; it marks every key,
    and it queues, in order, the first occurrence of every key that was not
    seen and sorts after [ts]. *)
Lemma scanItems_inv ts cid items :
  Forall hasTimestamp items ->
  forall s q0,
  exists s' qn,
    scanItems ts cid (s, q0) items = Some (s', (q0 ++ qn)%list) /\
    keysOf s' cid = keysOf s cid ∪ list_to_set (keysOfItems items) /\
    (forall c, c ≠ cid -> keysOf s' c = keysOf s c) /\
    (forall x, x ∈ qn <->
       exists j, items !! j = Some (it x) /\ keyOf (it x) = Some (a x) /\
                 a x ∉ keysOf s cid /\ a x ∉ keysOfItems (take j items) /\
                 keyLess ts (a x) = true) /\
    NoDup (a <$> qn).
Proof.
  induction 1 as [|i items Hi _ IH]; intros s q0.
  { exists s, []. simpl. rewrite app_nil_r. split; [done|]. split; [set_solver|].
    split; [done|]. split; [|constructor].
    intros x. split; [by intros ?%elem_of_nil|]. by intros (j & ? & _). }
  apply keyOf_hasTimestamp in Hi as [k Hk].
  simpl. rewrite (scanItem_eq _ _ _ _ _ Hk). simpl.
  set (s1 := (MarkSeen cid k s).2).
  assert (K1 : keysOf s1 cid = {[k]} ∪ keysOf s cid) by apply MarkSeen_keys.
  assert (O1 : forall c, c ≠ cid -> keysOf s1 c = keysOf s c).
  { intros c Hc. by apply MarkSeen_other. }
  set (hd := if bool_decide (k ∈ keysOf s cid) then []
             else if keyLess ts k then [{| a := k; it := i |}] else []).
  assert (Q1 : (if bool_decide (k ∈ keysOf s cid) then q0
                else if keyLess ts k then (q0 ++ [{| a := k; it := i |}])%list else q0)
               = (q0 ++ hd)%list).
  { subst hd. destruct (bool_decide _), (keyLess ts k); by rewrite ?app_nil_r. }
  rewrite Q1. destruct (IH s1 (q0 ++ hd)%list) as (s' & qn & Hrun & Hkeys & Hoth & Hmem & Hnd).
  exists s', (hd ++ qn)%list. rewrite app_assoc. split; [done|].
  unfold keysOfItems in *. simpl. rewrite Hk. simpl.
  split; [rewrite Hkeys, K1; set_solver|].
  split; [intros c Hc; rewrite Hoth, O1 by done; done|].
  assert (Hhd : forall x, x ∈ hd <->
            x = {| a := k; it := i |} /\ k ∉ keysOf s cid /\ keyLess ts k = true).
  { intros x. subst hd. destruct (bool_decide_reflect (k ∈ keysOf s cid)).
    - split; [by intros ?%elem_of_nil|]. by intros (_ & ? & _).
    - destruct (keyLess ts k).
      + rewrite list_elem_of_singleton. naive_solver.
      + split; [by intros ?%elem_of_nil|]. by intros (_ & _ & ?). }
  split.
  - intros [ax itx]. rewrite elem_of_app, Hhd, Hmem, K1. simpl. split.
    + intros [(E & Hs & Hl)|(j & Hj & Hkx & Hs & Ht & Hl)].
      * simplify_eq. exists 0%nat. simpl. split; [done|]. split; [done|].
        split; [done|]. split; [by intros ?%elem_of_nil|done].
      * exists (S j). simpl. rewrite Hk. simpl.
        split; [done|]. split; [done|]. split; [set_solver|]. split; [set_solver|done].
    + intros ([|j] & Hj & Hkx & Hs & Ht & Hl); simpl in *.
      * left. simplify_eq. done.
      * right. exists j. rewrite Hk in Ht. simpl in Ht.
        split; [done|]. split; [done|]. split; [set_solver|]. split; [set_solver|done].
  - rewrite fmap_app. apply NoDup_app. split; [|split; [|done]].
    + subst hd. destruct (bool_decide _), (keyLess ts k); simpl;
        try constructor; [by intros ?%elem_of_nil|constructor].
    + intros y Hy1 Hy2. apply list_elem_of_fmap in Hy1 as (x1 & -> & Hx1).
      apply list_elem_of_fmap in Hy2 as (x2 & E & Hx2).
      apply Hhd in Hx1 as (-> & _). apply Hmem in Hx2 as (_ & _ & _ & Hs & _).
      simpl in E. rewrite <- E, K1 in Hs. set_solver.
Qed.

Lemma cutoffKey_eq now : cutoffKey now = Some (FormatRFC3339 (cutoffTime now) ++ "-" ++ "").
Proof. done. Qed.

(** An item of an earlier whole second than the cutoff, printed with the
    same offset, does not sort after the cutoff key. *)
Lemma stale_key_not_after now i t k :
  effectiveTimestamp (gofeed.PublishedParsed i) (gofeed.UpdatedParsed i) = Some t ->
  keyOf i = Some k ->
  offsetOf t = offsetOf (cutoffTime now) ->
  fourDigitYear (localSec t) -> fourDigitYear (localSec (cutoffTime now)) ->
  unixSec t < unixSec (cutoffTime now) ->
  keyLess (FormatRFC3339 (cutoffTime now) ++ "-" ++ "") k = false.
Proof.
  intros Et Hk Hoff H1 H2 Hlt. unfold keyOf in Hk.
  rewrite NewArticleKey_eq, Et in Hk. simplify_eq/=.
  unfold keyLess, String.ltb. rewrite key_compare by done.
  assert ((unixSec (cutoffTime now) ?= unixSec t) = Gt) as ->
    by (apply Z.compare_gt_iff; lia).
  done.
Qed.

(** C1, as the code has it: the loop over the items of a feed returns when
    every item has a timestamp; every key is in the seen-set afterwards,
    whatever its age; an item whose key was not in the seen-set when the
    loop reached it is queued exactly when its key sorts strictly after the
    cutoff key; and an item of a whole second before that of the cutoff,
    printed with the same zone offset and a four-digit year, is marked and
    not queued. *)
Theorem scanItems_marks_and_queues now cid s items :
  Forall hasTimestamp items ->
  exists ts s' q,
    cutoffKey now = Some ts /\
    scanItems ts cid (s, []) items = Some (s', q) /\
    (forall i k, i ∈ items -> keyOf i = Some k -> k ∈ keysOf s' cid) /\
    (forall j i k,
       items !! j = Some i -> keyOf i = Some k ->
       k ∉ keysOf s cid -> k ∉ keysOfItems (take j items) ->
       ({| a := k; it := i |} ∈ q <-> keyLess ts k = true)) /\
    (forall i t,
       i ∈ items ->
       effectiveTimestamp (gofeed.PublishedParsed i) (gofeed.UpdatedParsed i) = Some t ->
       offsetOf t = offsetOf (cutoffTime now) ->
       fourDigitYear (localSec t) -> fourDigitYear (localSec (cutoffTime now)) ->
       unixSec t < unixSec (cutoffTime now) ->
       exists k, keyOf i = Some k /\ k ∈ keysOf s' cid /\ forall x, x ∈ q -> a x ≠ k).
Proof.
  intros Hall.
  destruct (scanItems_inv (FormatRFC3339 (cutoffTime now) ++ "-" ++ "") cid items Hall s [])
    as (s' & q & Hrun & Hkeys & _ & Hmem & _).
  simpl in Hrun. eexists _, s', q. split; [apply cutoffKey_eq|]. split; [done|].
  assert (Hmark : forall i k, i ∈ items -> keyOf i = Some k -> k ∈ keysOf s' cid).
  { intros i k Hi Hk. rewrite Hkeys. apply elem_of_union_r, elem_of_list_to_set.
    unfold keysOfItems. apply list_elem_of_omap. eauto. }
  split; [done|]. split.
  - intros j i k Hj Hk Hs Ht. rewrite Hmem. simpl. split.
    + by intros (_ & _ & _ & _ & _ & ?).
    + intros Hl. exists j. done.
  - intros i t Hi Et Hoff H1 H2 Hlt.
    assert (is_Some (keyOf i)) as [k Hk] by (apply keyOf_hasTimestamp; red; eauto).
    exists k. split; [done|]. split; [by eapply Hmark|].
    intros x Hx <-. apply Hmem in Hx as (_ & _ & _ & _ & _ & Hl).
    rewrite (stale_key_not_after now i t (a x)) in Hl; done.
Qed.

Lemma scanItems_marks_and_queues_witness :
  Forall hasTimestamp [itemOld; itemNew] /\
  exists ts s' q,
    cutoffKey exampleNow = Some ts /\
    scanItems ts 1 (NewSeens, []) [itemOld; itemNew] = Some (s', q) /\
    exists k, keyOf itemOld = Some k /\ k ∈ keysOf s' 1 /\ forall x, x ∈ q -> a x ≠ k.
Proof.
  assert (H : Forall hasTimestamp [itemOld; itemNew]).
  { repeat constructor; unfold hasTimestamp; simpl; eauto. }
  split; [exact H|].
  destruct (scanItems_marks_and_queues exampleNow 1 NewSeens [itemOld; itemNew] H)
    as (ts & s' & q & Hts & Hrun & _ & _ & Hstale).
  exists ts, s', q. split; [exact Hts|]. split; [exact Hrun|].
  apply (Hstale itemOld {| unixSec := 1577232000; nsec := 0; loc := UTC |}).
  - apply elem_of_cons. by left.
  - reflexivity.
  - reflexivity.
  - unfold fourDigitYear. vm_compute. split; [discriminate|reflexivity].
  - unfold fourDigitYear. vm_compute. split; [discriminate|reflexivity].
  - vm_compute. reflexivity.
Defined.

(** The scenario of the specification: "Old" was seen, "New" was not; one
    message is queued and both keys are in the seen-set afterwards. *)
Example scan_old_and_new :
  (fun r => (r.2, keysOf r.1 1)) <$>
    scanItems "2020-01-01T00:00:00Z-" 1
      (<[1 := Some {["2019-12-25T00:00:00Z-Old"]}]> NewSeens, []) [itemOld; itemNew]
  = Some ([{| a := "2020-01-08T00:00:00Z-New"; it := itemNew |}],
          {["2019-12-25T00:00:00Z-Old"; "2020-01-08T00:00:00Z-New"]}).
Proof. vm_compute. reflexivity. Qed.

(** Two items older than now - 192h that are queued.  The first is half a
    second older: its key has the second of the cutoff key and a title
    after it.  The second is three hours older and printed in UTC, while the
    cutoff key is printed five hours west of it. *)
Lemma stale_items_queued :
  (effectiveTimestamp (gofeed.PublishedParsed itemSameSecond)
     (gofeed.UpdatedParsed itemSameSecond)
   = Some {| unixSec := 1577836800; nsec := 0; loc := UTC |} /\
   cutoffTime exampleNow = {| unixSec := 1577836800; nsec := 500000000; loc := UTC |} /\
   Before {| unixSec := 1577836800; nsec := 0; loc := UTC |} (cutoffTime exampleNow) = true /\
   cutoffKey exampleNow = Some "2020-01-01T00:00:00Z-" /\
   snd <$> scanItems "2020-01-01T00:00:00Z-" 1 (NewSeens, []) [itemSameSecond]
   = Some [{| a := "2020-01-01T00:00:00Z-Post"; it := itemSameSecond |}]) /\
  (effectiveTimestamp (gofeed.PublishedParsed itemLate) (gofeed.UpdatedParsed itemLate)
   = Some {| unixSec := 1577826000; nsec := 0; loc := UTC |} /\
   cutoffTime nowWest = {| unixSec := 1577836800; nsec := 0; loc := FixedZone (-18000) |} /\
   Before {| unixSec := 1577826000; nsec := 0; loc := UTC |} (cutoffTime nowWest) = true /\
   cutoffKey nowWest = Some "2019-12-31T19:00:00-05:00-" /\
   snd <$> scanItems "2019-12-31T19:00:00-05:00-" 1 (NewSeens, []) [itemLate]
   = Some [{| a := "2019-12-31T21:00:00Z-Late"; it := itemLate |}]).
Proof.
  split.
  - split; [reflexivity|]. split; [reflexivity|]. split; [reflexivity|].
    split; [reflexivity|]. vm_compute. reflexivity.
  - split; [reflexivity|]. split; [reflexivity|]. split; [reflexivity|].
    split; [reflexivity|]. vm_compute. reflexivity.
Qed.

(** ** [sort.Slice] *)

Section Sorting.
Context {A : Type} (less : A -> A -> bool) (R : relation A).
Hypothesis less_R : forall x y, less x y = true -> R x y.
Hypothesis not_less_R : forall x y, less x y = false -> R y x.

Lemma insertSorted_Permutation x l : insertSorted less x l ≡ₚ x :: l.
Proof.
  induction l as [|y l IH]; simpl; [done|].
  destruct (less x y); [done|]. rewrite IH. apply Permutation_swap.
Qed.

Lemma insertSorted_HdRel z x l :
  R z x -> HdRel R z l -> HdRel R z (insertSorted less x l).
Proof.
  intros Hzx Hzl. destruct l as [|y l]; simpl; [by constructor|].
  destruct (less x y); constructor; [done|]. by inversion Hzl.
Qed.

Lemma insertSorted_Sorted x l : Sorted R l -> Sorted R (insertSorted less x l).
Proof.
  induction 1 as [|y l Hl IH Hy]; simpl; [by repeat constructor|].
  destruct (less x y) eqn:E.
  - constructor; [by constructor|]. constructor. by apply less_R.
  - constructor; [done|]. apply insertSorted_HdRel; [|done]. by apply not_less_R.
Qed.

Lemma foldl_insertSorted_Permutation q acc :
  foldl (fun acc x => insertSorted less x acc) acc q ≡ₚ (acc ++ q)%list.
Proof.
  revert acc. induction q as [|x q IH]; intros acc; simpl.
  - by rewrite app_nil_r.
  - rewrite IH, insertSorted_Permutation. simpl. apply Permutation_middle.
Qed.

Lemma foldl_insertSorted_Sorted q acc :
  Sorted R acc -> Sorted R (foldl (fun acc x => insertSorted less x acc) acc q).
Proof.
  revert acc. induction q as [|x q IH]; intros acc Hacc; simpl; [done|].
  by apply IH, insertSorted_Sorted.
Qed.

Lemma sortSlice_Permutation q : sortSlice less q ≡ₚ q.
Proof. unfold sortSlice. by rewrite foldl_insertSorted_Permutation. Qed.

Lemma sortSlice_Sorted q : Sorted R (sortSlice less q).
Proof. apply foldl_insertSorted_Sorted. constructor. Qed.
End Sorting.

Lemma ltb_le x y : String.ltb x y = true -> String.le x y.
Proof.
  unfold String.le, String.leb, String.ltb.
  by destruct (String.compare x y).
Qed.

Lemma not_ltb_le x y : String.ltb x y = false -> String.le y x.
Proof.
  unfold String.le, String.leb, String.ltb.
  rewrite (String.compare_antisym y x).
  by destruct (String.compare x y).
Qed.

Lemma le_ne_ltb x y : String.le x y -> x ≠ y -> String.ltb x y = true.
Proof.
  unfold String.le, String.leb, String.ltb. intros Hle Hne.
  destruct (String.compare x y) eqn:E; [|done|done].
  by apply String.compare_eq_iff in E.
Qed.

Global Instance hLe_trans : Transitive hLe.
Proof. intros x y z. unfold hLe. apply transitivity. Qed.

Lemma sortSlice_hLess_Sorted q : Sorted hLe (sortSlice hLess q).
Proof.
  apply (sortSlice_Sorted hLess hLe); intros x y; unfold hLess, keyLess, hLe.
  - apply ltb_le.
  - apply not_ltb_le.
Qed.

Lemma NoDup_keys_inj (q : list h) x y :
  NoDup (a <$> q) -> x ∈ q -> y ∈ q -> a x = a y -> x = y.
Proof.
  induction q as [|z q IH]; simpl; intros Hnd Hx Hy E; [by apply elem_of_nil in Hx|].
  apply NoDup_cons in Hnd as [Hz Hnd].
  apply elem_of_cons in Hx as [->|Hx]; apply elem_of_cons in Hy as [->|Hy];
    [done| | |by apply IH].
  - exfalso. apply Hz. rewrite E. by apply list_elem_of_fmap_2.
  - exfalso. apply Hz. rewrite <- E. by apply list_elem_of_fmap_2.
Qed.

(** With pairwise distinct keys there is one sorted arrangement. *)
Lemma sorted_queue_unique (q q' : list h) :
  NoDup (a <$> q) -> q' ≡ₚ q -> Sorted hLe q' -> q' = sortSlice hLess q.
Proof.
  intros Hnd Hperm Hsorted.
  apply (Sorted_unique_strong hLe); [|done|apply sortSlice_hLess_Sorted|].
  - intros x y Hx Hy Hxy Hyx. apply (NoDup_keys_inj q); [done|by rewrite <- Hperm| |].
    + rewrite <- (sortSlice_Permutation hLess q). done.
    + unfold hLe in *. by apply (anti_symm String.le).
  - by rewrite sortSlice_Permutation.
Qed.

(** Strictly ascending keys. *)
Lemma sorted_queue_strict (q : list h) :
  NoDup (a <$> q) ->
  StronglySorted (fun x y => keyLess x y = true) (a <$> sortSlice hLess q).
Proof.
  intros Hnd.
  assert (Hnd' : NoDup (a <$> sortSlice hLess q)).
  { by rewrite (sortSlice_Permutation hLess q). }
  pose proof (Sorted_StronglySorted hLe _ (sortSlice_hLess_Sorted q)) as Hs.
  induction Hs as [|x l Hl IH Hx]; simpl; [constructor|].
  apply NoDup_cons in Hnd' as [Hx' Hnd']. constructor; [by apply IH|].
  rewrite Forall_fmap. rewrite Forall_forall in Hx |- *. intros y Hy. simpl.
  apply le_ne_ltb; [by apply Hx|]. intros E. apply Hx'. rewrite E.
  by apply list_elem_of_fmap_2.
Qed.

(** ** Delivery order *)

Lemma sentTo_emit cid q : sentTo cid (emit cid q) = a <$> sortSlice hLess q.
Proof.
  unfold sentTo, emit. generalize (sortSlice hLess q). intros l.
  induction l as [|x l IH]; [done|].
  rewrite fmap_cons, filter_cons_True by done. rewrite !fmap_cons. by f_equal.
Qed.

(** C3, as the code has it: what one feed task queues for one channel is
    sent in strictly ascending order of the keys, which are pairwise
    distinct; the order sent is the one sorted arrangement of the queue. *)
Theorem emit_ascending ts cid s items :
  Forall hasTimestamp items ->
  exists s' q,
    scanItems ts cid (s, []) items = Some (s', q) /\
    sentTo cid (emit cid q) ≡ₚ a <$> q /\
    StronglySorted (fun x y => keyLess x y = true) (sentTo cid (emit cid q)) /\
    forall q', q' ≡ₚ q -> Sorted hLe q' -> emit cid q = (fun x => (cid, x)) <$> q'.
Proof.
  intros Hall.
  destruct (scanItems_inv ts cid items Hall s []) as (s' & q & Hrun & _ & _ & _ & Hnd).
  simpl in Hrun. exists s', q. split; [done|]. rewrite sentTo_emit. split.
  - by rewrite (sortSlice_Permutation hLess q).
  - split; [by apply sorted_queue_strict|].
    intros q' Hperm Hsorted. unfold emit.
    by rewrite (sorted_queue_unique q q' Hnd Hperm Hsorted).
Qed.

Lemma emit_ascending_witness :
  Forall hasTimestamp [itemNew; itemOther; itemOld] /\
  exists s' q,
    scanItems "2019-01-01T00:00:00Z-" 1 (NewSeens, []) [itemNew; itemOther; itemOld]
    = Some (s', q) /\
    StronglySorted (fun x y => keyLess x y = true) (sentTo 1 (emit 1 q)).
Proof.
  assert (H : Forall hasTimestamp [itemNew; itemOther; itemOld]).
  { repeat constructor; unfold hasTimestamp; simpl; eauto. }
  split; [exact H|].
  destruct (emit_ascending "2019-01-01T00:00:00Z-" 1 NewSeens [itemNew; itemOther; itemOld] H)
    as (s' & q & Hrun & _ & Hsorted & _).
  exists s', q. exact (conj Hrun Hsorted).
Defined.

Example emit_three :
  (fun r => sentTo 1 (emit 1 r.2)) <$>
    scanItems "2019-01-01T00:00:00Z-" 1 (NewSeens, []) [itemNew; itemOther; itemOld]
  = Some ["2019-12-25T00:00:00Z-Old"; "2020-01-07T00:00:00Z-Other"; "2020-01-08T00:00:00Z-New"].
Proof. vm_compute. reflexivity. Qed.

(** A channel subscribed to two feeds: each task sorts its own queue, and
    what the channel is sent in the cycle is not ascending. *)
Lemma deliveries_of_two_feeds_not_ascending :
  let order := [("http://a.test/rss", [2; 1]); ("http://b.test/rss", [1])] in
  tasksOver exampleFeeds order /\
  (fun r => sentTo 1 r.2) <$> update exampleParser exampleNow order NewSeens
  = Some ["2020-01-08T00:00:00Z-New"; "2020-01-07T00:00:00Z-Other"] /\
  keyLess "2020-01-07T00:00:00Z-Other" "2020-01-08T00:00:00Z-New" = true.
Proof.
  split; [|split]; [|vm_compute; reflexivity|reflexivity].
  exists (map_to_list exampleFeeds). split; [unfold rangesOver; reflexivity|].
  vm_compute. repeat constructor.
Qed.

(** ** The cycle returns *)

Lemma feedChats_returns ts items chats st :
  Forall hasTimestamp items -> is_Some (feedChats ts items chats st).
Proof.
  intros Hall. revert st. induction chats as [|cid chats IH]; intros st; simpl; [eauto|].
  destruct (scanItems_inv ts cid items Hall st.1 []) as (s' & q & -> & _). simpl. apply IH.
Qed.

(** A feed that does not parse is skipped; the cycle goes on. *)
Lemma runTasks_returns parse ts order st :
  (forall url f, parse url = inr f -> Forall hasTimestamp (gofeed.Items f)) ->
  is_Some (runTasks parse ts order st).
Proof.
  intros Hall. revert st. induction order as [|[url chats] order IH]; intros st; simpl; [eauto|].
  unfold feedTask. destruct (parse url) as [err|f] eqn:E; simpl; [apply IH|].
  destruct (feedChats_returns ts (gofeed.Items f) chats st (Hall url f E)) as [st' ->].
  simpl. apply IH.
Qed.

Lemma update_returns parse now order s :
  (forall url f, parse url = inr f -> Forall hasTimestamp (gofeed.Items f)) ->
  is_Some (update parse now order s).
Proof.
  intros Hall. unfold update. rewrite cutoffKey_eq. simpl. by apply runTasks_returns.
Qed.

(** ** Persistence *)

Lemma string_of_uint_head d :
  d ≠ Decimal.Nil ->
  exists c r, NilEmpty.string_of_uint d = String c r /\
              Ascii.eqb c "+" = false /\ Ascii.eqb c "-" = false.
Proof. destruct d; [done|..]; intros _; simpl; eauto. Qed.

Lemma to_uint_nonnil p : Pos.to_uint p ≠ Decimal.Nil.
Proof.
  intros E. pose proof (DecimalPos.Unsigned.of_to p) as H. by rewrite E in H.
Qed.

Lemma ParseInt_unsigned c r u :
  Ascii.eqb c "+" = false -> Ascii.eqb c "-" = false ->
  NilZero.uint_of_string (String c r) = Some u ->
  int64 (Z.of_N (N.of_uint u)) ->
  ParseInt (String c r) = Some (Z.of_N (N.of_uint u)).
Proof.
  intros Hp Hm U Hr. unfold ParseInt. rewrite Hp, Hm, U. simpl.
  unfold int64 in Hr.
  destruct (Z.leb_spec (- 2 ^ 63) (Z.of_N (N.of_uint u))); [|lia].
  destruct (Z.ltb_spec (Z.of_N (N.of_uint u)) (2 ^ 63)); [done|lia].
Qed.

Lemma ParseInt_negative r u :
  NilZero.uint_of_string r = Some u ->
  int64 (- Z.of_N (N.of_uint u)) ->
  ParseInt (String "-" r) = Some (- Z.of_N (N.of_uint u)).
Proof.
  intros U Hr. unfold ParseInt. simpl. rewrite U. simpl.
  unfold int64 in Hr.
  destruct (Z.leb_spec (- 2 ^ 63) (- Z.of_N (N.of_uint u))); [|lia].
  destruct (Z.ltb_spec (- Z.of_N (N.of_uint u)) (2 ^ 63)); [done|lia].
Qed.

Lemma ParseInt_digits d :
  d ≠ Decimal.Nil -> int64 (Z.of_N (N.of_uint d)) ->
  ParseInt (NilZero.string_of_uint d) = Some (Z.of_N (N.of_uint d)).
Proof.
  intros Hd Hr. pose proof (NilZero.usu d Hd) as U.
  assert (NilZero.string_of_uint d = NilEmpty.string_of_uint d) as Es by (by destruct d).
  rewrite Es in *. destruct (string_of_uint_head d Hd) as (c & r & E & Hp & Hm).
  rewrite E in *. by apply ParseInt_unsigned.
Qed.

Lemma ParseInt_FormatInt z : int64 z -> ParseInt (FormatInt z) = Some z.
Proof.
  intros Hz. unfold FormatInt. destruct z as [|p|p]; unfold Z.to_int, NilZero.string_of_int.
  - done.
  - pose proof (DecimalPos.Unsigned.of_to p) as E.
    rewrite (ParseInt_digits (Pos.to_uint p)).
    + unfold N.of_uint. by rewrite E.
    + apply to_uint_nonnil.
    + unfold N.of_uint. by rewrite E.
  - pose proof (DecimalPos.Unsigned.of_to p) as E.
    pose proof (NilZero.usu _ (to_uint_nonnil p)) as U.
    rewrite (ParseInt_negative _ _ U); unfold N.of_uint; rewrite E; done.
Qed.

(** ** Entries of a map *)

Lemma fmap_Permutation_inv {A B} (f : A -> B) (l : list A) (ms : list B) :
  ms ≡ₚ f <$> l -> exists l', ms = f <$> l' /\ l' ≡ₚ l.
Proof.
  intros H. rewrite list_fmap_alt in H.
  destruct (Permutation_map_inv f l H) as (l' & -> & Hl').
  exists l'. by rewrite list_fmap_alt.
Qed.

Lemma foldl_insert_lookup `{Countable K} {V} (kvs : list (K * V)) (m0 : gmap K V) k :
  NoDup kvs.*1 ->
  foldl (fun m kv => <[kv.1 := kv.2]> m) m0 kvs !! k =
  match (list_to_map kvs : gmap K V) !! k with
  | Some v => Some v
  | None => m0 !! k
  end.
Proof.
  revert m0. induction kvs as [|[k0 v0] kvs IH]; intros m0 Hnd; simpl.
  { by rewrite lookup_empty. }
  apply NoDup_cons in Hnd as [Hk0 Hnd]. rewrite IH by done.
  destruct (decide (k = k0)) as [->|Hne].
  - rewrite lookup_insert_eq.
    rewrite (not_elem_of_list_to_map_1 _ _ Hk0). by rewrite lookup_insert_eq.
  - rewrite !lookup_insert_ne by done. done.
Qed.

Lemma storeEntries_NoDup `{Countable K} {V} (kvs : list (K * V)) :
  NoDup kvs.*1 -> storeEntries kvs = list_to_map kvs.
Proof.
  intros Hnd. apply map_eq. intros k. unfold storeEntries.
  rewrite foldl_insert_lookup by done. rewrite lookup_empty.
  by destruct (list_to_map kvs !! k).
Qed.

Lemma decEntries_fmap {K V} (key : string -> option K) (val : json -> option V)
    (fk : K -> string) (fv : V -> json) (l : list (K * V)) :
  Forall (fun p => key (fk p.1) = Some p.1 /\ val (fv p.2) = Some p.2) l ->
  decEntries key val ((fun p => (fk p.1, fv p.2)) <$> l) = Some l.
Proof.
  intros Hl. unfold decEntries. apply mapM_Some_2.
  induction Hl as [|[k v] l [Hk Hv] _ IH]; simpl; [constructor|].
  constructor; [|done]. simpl in *. by rewrite Hk, Hv.
Qed.

(** Whatever the order of the members, the entries of a map decode to the
    map. *)
Lemma map_roundtrip `{Countable K} {V} (m : gmap K V)
    (key : string -> option K) (val : json -> option V)
    (fk : K -> string) (fv : V -> json) (ms : list (string * json)) :
  (forall k v, m !! k = Some v -> key (fk k) = Some k /\ val (fv v) = Some v) ->
  ms ≡ₚ (fun p => (fk p.1, fv p.2)) <$> map_to_list m ->
  storeEntries <$> decEntries key val ms = Some m.
Proof.
  intros Hm Hms. apply fmap_Permutation_inv in Hms as (l & -> & Hl).
  rewrite decEntries_fmap.
  - simpl. f_equal. rewrite storeEntries_NoDup.
    + rewrite <- (list_to_map_to_list m). apply list_to_map_proper; [|done].
      rewrite Hl. apply NoDup_fst_map_to_list.
    + rewrite Hl. apply NoDup_fst_map_to_list.
  - apply Forall_forall. intros [k v] Hkv. simpl. apply Hm.
    rewrite Hl in Hkv. by apply elem_of_map_to_list.
Qed.

Lemma set_roundtrip `{Countable K} (X : gset K)
    (key : string -> option K) (fk : K -> string) (ms : list (string * json)) :
  (forall k, k ∈ X -> key (fk k) = Some k) ->
  ms ≡ₚ (fun k => (fk k, encUnit)) <$> elements X ->
  (kvs ← decEntries key decUnit ms; Some (list_to_set kvs.*1)) = Some X.
Proof.
  intros HX Hms. apply fmap_Permutation_inv in Hms as (l & -> & Hl).
  assert (decEntries key decUnit ((fun k => (fk k, encUnit)) <$> l)
          = Some ((fun k => (k, tt)) <$> l)) as ->.
  { unfold decEntries. apply mapM_Some_2.
    assert (Forall (fun k => k ∈ X) l) as Hall.
    { apply Forall_forall. intros k Hk. rewrite Hl in Hk. by apply elem_of_elements in Hk. }
    clear Hl. induction Hall as [|k l Hk _ IH]; simpl; [constructor|].
    constructor; [|done]. simpl. by rewrite (HX k Hk). }
  simpl. f_equal.
  assert (((fun k => (k, tt)) <$> l).*1 = l) as ->.
  { clear. induction l as [|k l IH]; [done|]. rewrite !fmap_cons. by f_equal. }
  rewrite Hl. apply list_to_set_elements_L.
Qed.


(** ** The document of [main.go] *)

Section RoundTrip.
Variable arrange : list (string * json) -> list (string * json).
Hypothesis arrange_perm : forall ms, arrange ms ≡ₚ ms.



Lemma decChats_encChatsWith (c : gset Z) :
  (forall cid, cid ∈ c -> int64 cid) -> decChats (encChatsWith arrange c) = Some c.
Proof.
  intros Hc. simpl. apply (set_roundtrip c ParseInt FormatInt).
  - intros cid Hcid. apply ParseInt_FormatInt. by apply Hc.
  - apply arrange_perm.
Qed.



End RoundTrip.

Lemma sortMembers_perm ms : sortMembers ms ≡ₚ ms.
Proof. apply sortSlice_Permutation. Qed.

Lemma decFeed_encFeed f :
  (forall cid, cid ∈ Chats f -> int64 cid) -> decFeed (encFeed f) = Some f.
Proof.
  intros Hf. unfold encFeed, decFeed.
  replace (member "Chats" _) with (Some (encChats (Chats f))) by reflexivity.
  replace (member "Title" _) with (Some (JString (Title f))) by reflexivity.
  cbn [mbind option_bind].
  rewrite (decChats_encChatsWith sortMembers sortMembers_perm) by done.
  cbn [mbind option_bind decTitle]. by destruct f.
Qed.

Lemma decFeeds_encFeeds (fs : Feeds) :
  (forall url f cid, fs !! url = Some f -> cid ∈ Chats f -> int64 cid) ->
  decFeeds (encFeeds fs) = Some fs.
Proof.
  intros Hfs. simpl.
  apply (map_roundtrip fs Some decFeed id encFeed).
  - intros url f Hurl. split; [done|]. apply decFeed_encFeed. eauto.
  - apply sortMembers_perm.
Qed.


(** ** The codec of the earlier revision *)

Lemma decArr_strings l : Rev0Json.decArr (JArray (JString <$> l)) = Some l.
Proof.
  simpl. apply mapM_Some_2. induction l as [|k l IH]; simpl; by constructor.
Qed.

Lemma markAll_nil arr :
  Rev0Json.markAll None arr = match arr with
                              | [] => Rev0Json.Done None
                              | _ :: _ => Rev0Json.Panic
                              end.
Proof. by destruct arr. Qed.

(** The decoder calls [UnmarshalJSON] on a nil map: an empty array leaves
    it nil, any other array ends in the assignment to an entry of a nil
    map. *)
Lemma UnmarshalJSON_MarshalJSON range us :
  (forall m, range m ≡ₚ elements m) ->
  Rev0Json.UnmarshalJSON None (Rev0Json.MarshalJSON range us)
  = if bool_decide (default ∅ us = ∅) then Rev0Json.Done None else Rev0Json.Panic.
Proof.
  intros Hr. unfold Rev0Json.UnmarshalJSON, Rev0Json.MarshalJSON.
  rewrite decArr_strings. simpl. rewrite markAll_nil.
  destruct us as [m|]; simpl.
  - pose proof (Hr m) as Hm. destruct (range m) as [|k l] eqn:E.
    + symmetry in Hm. apply Permutation_nil_r in Hm.
      apply elements_empty_inv in Hm. apply leibniz_equiv in Hm.
      by rewrite bool_decide_eq_true_2.
    + rewrite bool_decide_eq_false_2; [done|]. intros ->.
      rewrite elements_empty in Hm. by apply Permutation_nil_r in Hm.
  - by rewrite bool_decide_eq_true_2.
Qed.

Lemma decSeensEntries_panics range (l1 l2 : list (Z * Seen)) cid us acc :
  (forall m, range m ≡ₚ elements m) ->
  Forall (fun p => int64 p.1) l1 -> int64 cid ->
  Forall (fun p => default ∅ p.2 = ∅) l1 ->
  default ∅ us ≠ ∅ ->
  Rev0Json.decSeensEntries
    ((fun p => (FormatInt p.1, Rev0Json.MarshalJSON range p.2)) <$> (l1 ++ (cid, us) :: l2)%list)
    acc
  = Rev0Json.Panic.
Proof.
  intros Hr Hi Hcid He Hus. revert acc.
  induction l1 as [|[c u] l1 IH]; intros acc; simpl.
  - rewrite ParseInt_FormatInt by done. simpl.
    rewrite UnmarshalJSON_MarshalJSON by done.
    by rewrite bool_decide_eq_false_2.
  - apply Forall_cons in Hi as [Hc Hi]. apply Forall_cons in He as [Hu He].
    simpl in *. rewrite ParseInt_FormatInt by done. simpl.
    rewrite UnmarshalJSON_MarshalJSON by done.
    rewrite bool_decide_eq_true_2 by done. simpl. by apply IH.
Qed.

Lemma first_such {A} (P : A -> Prop) `{forall x, Decision (P x)} (l : list A) x :
  x ∈ l -> P x ->
  exists l1 y l2, l = (l1 ++ y :: l2)%list /\ Forall (fun z => ¬ P z) l1 /\ P y.
Proof.
  intros Hx HPx. induction l as [|z l IH]; [by apply elem_of_nil in Hx|].
  destruct (decide (P z)) as [Hz|Hz].
  - exists [], z, l. by repeat split.
  - apply elem_of_cons in Hx as [->|Hx]; [done|].
    destruct (IH Hx) as (l1 & y & l2 & -> & Hl1 & Hy).
    exists (z :: l1), y, l2. split; [done|]. split; [by constructor|done].
Qed.

(** The earlier revision cannot read back what it wrote once a channel
    has seen an article. *)
Lemma rev0_roundtrip_panics range st cid m :
  (forall m, range m ≡ₚ elements m) ->
  int64Ids st ->
  seens st !! cid = Some (Some m) -> m ≠ ∅ ->
  Rev0Json.decServer (Rev0Json.encServer range st) = Rev0Json.Panic.
Proof.
  intros Hr [Hs Hf] Hcid Hm. unfold Rev0Json.encServer, Rev0Json.decServer.
  replace (member "Feeds" _) with (Some (encFeeds (feeds st))) by reflexivity.
  replace (member "Seens" _) with (Some (Rev0Json.encSeens range (seens st)))
    by reflexivity.
  cbn [mbind option_bind]. rewrite decFeeds_encFeeds by done.
  cbn [Rev0Json.ofOption Rev0Json.bind Rev0Json.encSeens Rev0Json.decSeens].
  destruct (fmap_Permutation_inv _ _ _ (sortMembers_perm
    ((fun p => (FormatInt p.1, Rev0Json.MarshalJSON range p.2)) <$> map_to_list (seens st))))
    as (l & -> & Hl).
  assert ((cid, Some m) ∈ l) as Hin by (rewrite Hl; by apply elem_of_map_to_list).
  destruct (first_such (fun p : Z * Seen => default ∅ p.2 ≠ ∅) l _ Hin Hm)
    as (l1 & [c u] & l2 & -> & Hl1 & Hu).
  assert (Hall : Forall (fun p : Z * Seen => int64 p.1) (l1 ++ (c, u) :: l2)).
  { apply Forall_forall. intros [c' u'] Hc'. rewrite Hl in Hc'.
    apply elem_of_map_to_list in Hc'. by eapply Hs. }
  apply Forall_app in Hall as [Hall1 Hall2]. apply Forall_cons in Hall2 as [Hc _].
  rewrite (decSeensEntries_panics range l1 l2 c u); try done.
  eapply Forall_impl; [exact Hl1|]. intros p Hp. simpl in Hp.
  by destruct (decide (default ∅ p.2 = ∅)).
Qed.




(** What [main.go] writes for the example. *)
Example encServer_example :
  encServer exampleState
  = JObject
      [("Feeds",
        JObject
          [("http://a.test/rss",
            JObject [("Chats", JObject [("1", JObject []); ("2", JObject [])]);
                     ("Title", JString "Tech News")]);
           ("http://b.test/rss",
            JObject [("Chats", JObject [("1", JObject [])]); ("Title", JString "Cooking")])]);
       ("Seens",
        JObject
          [("-7", JObject []);
           ("1", JObject [("2019-12-25T00:00:00Z-Old", JObject []);
                          ("2020-01-08T00:00:00Z-New", JObject [])])])].
Proof. vm_compute. reflexivity. Qed.


(** * Further properties *)

(** ** Subscribing and unsubscribing *)

Lemma chatsOf_insert_eq (f : Feeds) url feed : chatsOf (<[url := feed]> f) url = Chats feed.
Proof. unfold chatsOf. by rewrite lookup_insert_eq. Qed.

Lemma chatsOf_alter_eq (f : Feeds) g url :
  chatsOf (alter g url f) url = match f !! url with
                                | Some feed => Chats (g feed)
                                | None => ∅
                                end.
Proof. unfold chatsOf. rewrite lookup_alter_eq. by destruct (f !! url). Qed.

Lemma Feeds_Add_new parse url cid f feed :
  f !! url = None -> parse url = inr feed ->
  Feeds_Add parse url cid f
  = (None, <[url := {| Chats := {[cid]}; Title := gofeed.FeedTitle feed |}]> f).
Proof.
  intros Hnew Hp. unfold Feeds_Add, Feeds_New. rewrite Hnew, Hp. f_equal.
  rewrite alter_insert_eq. unfold Feed_Add, NewFeed. simpl.
  by rewrite (right_id_L ∅ (∪)).
Qed.

Lemma Feeds_Add_known parse url cid f feed :
  f !! url = Some feed ->
  Feeds_Add parse url cid f
  = (None, <[url := {| Chats := {[cid]} ∪ Chats feed; Title := Title feed |}]> f).
Proof.
  intros Hk. unfold Feeds_Add. rewrite Hk. f_equal.
  apply map_eq. intros u. destruct (decide (u = url)) as [->|Hne].
  - by rewrite lookup_alter_eq, lookup_insert_eq, Hk.
  - by rewrite lookup_alter_ne, lookup_insert_ne.
Qed.

(** X1: [Add] of a url that is a key, or that parses, returns no error, makes
    the chat a subscriber of that url, fetches nothing and keeps the title
    for a url that is a key, and leaves every other entry as it was. *)
Theorem Feeds_Add_subscribes parse url cid f :
  (is_Some (f !! url) \/ exists feed, parse url = inr feed) ->
  (Feeds_Add parse url cid f).1 = None /\
  chatsOf (Feeds_Add parse url cid f).2 url = {[cid]} ∪ chatsOf f url /\
  (forall feed, f !! url = Some feed ->
     Title <$> (Feeds_Add parse url cid f).2 !! url = Some (Title feed)) /\
  (forall feed, f !! url = None -> parse url = inr feed ->
     Title <$> (Feeds_Add parse url cid f).2 !! url = Some (gofeed.FeedTitle feed)) /\
  (forall u, u ≠ url -> (Feeds_Add parse url cid f).2 !! u = f !! u).
Proof.
  intros H. destruct (f !! url) as [feed|] eqn:E.
  - rewrite (Feeds_Add_known _ _ _ _ _ E). simpl. unfold chatsOf at 2. rewrite E.
    rewrite chatsOf_insert_eq, lookup_insert_eq. simpl.
    repeat split; [by intros ? [= ->]|done|]. intros u Hu. by rewrite lookup_insert_ne.
  - destruct H as [H|[feed Hp]]; [by apply is_Some_None in H|].
    rewrite (Feeds_Add_new _ _ _ _ _ E Hp). simpl. unfold chatsOf at 2. rewrite E.
    rewrite chatsOf_insert_eq, lookup_insert_eq. simpl.
    split; [done|]. split; [set_solver|]. split; [done|].
    split; [intros ? _ ?; congruence|]. intros u Hu. by rewrite lookup_insert_ne.
Qed.

Lemma Feeds_Add_subscribes_witness :
  (exists feed, exampleParser "http://b.test/rss" = inr feed) /\
  chatsOf (Feeds_Add exampleParser "http://b.test/rss" 9 NewFeeds).2 "http://b.test/rss"
  = {[9]} ∪ chatsOf NewFeeds "http://b.test/rss".
Proof.
  assert (H : exists feed, exampleParser "http://b.test/rss" = inr feed) by (eexists; reflexivity).
  split; [exact H|].
  exact (proj1 (proj2 (Feeds_Add_subscribes exampleParser "http://b.test/rss" 9 NewFeeds
                         (or_intror H)))).
Defined.

(** X2: Subscribing twice is subscribing once: after an [Add] that returned no
    error, the same [Add] changes nothing, even when the feed no longer
    parses. *)
Theorem Feeds_Add_idempotent parse parse' url cid f :
  (Feeds_Add parse url cid f).1 = None ->
  Feeds_Add parse' url cid (Feeds_Add parse url cid f).2
  = (None, (Feeds_Add parse url cid f).2).
Proof.
  intros Hok. destruct (f !! url) as [feed|] eqn:E.
  - rewrite (Feeds_Add_known parse _ _ _ _ E). simpl.
    rewrite (Feeds_Add_known parse' _ _ _ _ (lookup_insert_eq _ _ _)). simpl.
    rewrite insert_insert_eq. do 3 f_equal. set_solver.
  - destruct (parse url) as [err|feed] eqn:Hp.
    + unfold Feeds_Add, Feeds_New in Hok. by rewrite E, Hp in Hok.
    + rewrite (Feeds_Add_new parse _ _ _ _ E Hp). simpl.
      rewrite (Feeds_Add_known parse' _ _ _ _ (lookup_insert_eq _ _ _)). simpl.
      rewrite insert_insert_eq. do 3 f_equal. set_solver.
Qed.

Lemma Feeds_Add_idempotent_witness :
  (Feeds_Add exampleParser "http://a.test/rss" 9 NewFeeds).1 = None /\
  Feeds_Add (fun _ => inl "gone") "http://a.test/rss" 9
    (Feeds_Add exampleParser "http://a.test/rss" 9 NewFeeds).2
  = (None, (Feeds_Add exampleParser "http://a.test/rss" 9 NewFeeds).2).
Proof.
  assert (H : (Feeds_Add exampleParser "http://a.test/rss" 9 NewFeeds).1 = None)
    by reflexivity.
  split; [exact H|].
  exact (Feeds_Add_idempotent exampleParser (fun _ => inl "gone") "http://a.test/rss" 9
           NewFeeds H).
Defined.

Lemma Feeds_Rm_cases ToLower order url title cid f :
  (exists u, is_Some (f !! u) /\
             Feeds_Rm ToLower order url title cid f = (None, alter (Feed_Rm cid) u f)) \/
  (exists u, f !! u = None /\
             Feeds_Rm ToLower order url title cid f = (None, f)) \/
  Feeds_Rm ToLower order url title cid f = (Some "No matching subscription found", f).
Proof.
  unfold Feeds_Rm.
  destruct (bool_decide (url ≠ "") && bool_decide (is_Some (f !! url))) eqn:E.
  - left. exists url. apply andb_true_iff in E as [_ E]. by apply bool_decide_eq_true in E.
  - destruct (List.find _ order) as [[u feed]|]; [|by right; right].
    destruct (f !! u) as [x|] eqn:Eu.
    + left. exists u. by rewrite Eu.
    + right. left. exists u. split; [done|]. f_equal. apply map_eq. intros v.
      destruct (decide (v = u)) as [->|Hne].
      * by rewrite lookup_alter_eq, Eu.
      * by rewrite lookup_alter_ne.
Qed.

(** X3: [Rm] deletes no feed and touches no title and no other chat: whatever
    its arguments, the registry keeps its keys, every feed keeps its title,
    and a feed loses at most the chat [cid]. *)
Theorem Feeds_Rm_only_unsubscribes ToLower order url title cid f :
  dom (Feeds_Rm ToLower order url title cid f).2 = dom f /\
  forall u feed,
    f !! u = Some feed ->
    exists feed',
      (Feeds_Rm ToLower order url title cid f).2 !! u = Some feed' /\
      Title feed' = Title feed /\
      (Chats feed' = Chats feed \/ Chats feed' = Chats feed ∖ {[cid]}).
Proof.
  destruct (Feeds_Rm_cases ToLower order url title cid f)
    as [(v & Hv & ->)|[(v & Hv & ->)| ->]]; simpl.
  - split; [apply dom_alter_L|]. intros u feed Hu.
    destruct (decide (u = v)) as [->|Hne].
    + rewrite lookup_alter_eq, Hu. simpl. eexists. split; [done|]. split; [done|]. by right.
    + rewrite lookup_alter_ne by done. exists feed. split; [done|]. split; [done|]. by left.
  - split; [done|]. intros u feed Hu. exists feed. split; [done|]. split; [done|]. by left.
  - split; [done|]. intros u feed Hu. exists feed. split; [done|]. split; [done|]. by left.
Qed.

(** X4: Unsubscribing after subscribing: with a non-empty url, [Rm] by that url
    after an [Add] that returned no error succeeds and the chat is no
    subscriber.  For a url that was a key with the chat not subscribed the
    registry is as before the [Add]; for a url that was no key the feed
    stays in the registry without subscribers. *)
Theorem Feeds_Rm_after_Add parse ToLower order url title cid f :
  url ≠ "" ->
  (Feeds_Add parse url cid f).1 = None ->
  let f1 := (Feeds_Add parse url cid f).2 in
  exists f2,
    Feeds_Rm ToLower order url title cid f1 = (None, f2) /\
    (cid ∉ chatsOf f2 url) /\
    (forall feed, f !! url = Some feed -> cid ∉ Chats feed -> f2 = f) /\
    (forall feed, f !! url = None -> parse url = inr feed ->
       f2 = <[url := NewFeed (gofeed.FeedTitle feed)]> f).
Proof.
  intros Hurl Hok f1. subst f1.
  assert (Hex : forall f1, is_Some (f1 !! url) ->
            Feeds_Rm ToLower order url title cid f1 = (None, alter (Feed_Rm cid) url f1)).
  { intros f1 H1. apply Feeds_Rm_exact. by split. }
  destruct (f !! url) as [feed|] eqn:E.
  - rewrite (Feeds_Add_known parse _ _ _ _ E) in *. simpl in *.
    eexists. split; [apply Hex; by rewrite lookup_insert_eq|].
    rewrite alter_insert_eq. split; [rewrite chatsOf_insert_eq; simpl; set_solver|].
    split; [|done]. intros ? [= <-] Hc. unfold Feed_Rm. simpl.
    apply map_eq. intros u. destruct (decide (u = url)) as [->|Hne].
    + rewrite lookup_insert_eq, E. f_equal. destruct feed as [c t]. simpl in *. f_equal.
      set_solver.
    + by rewrite lookup_insert_ne.
  - destruct (parse url) as [err|feed] eqn:Hp.
    { unfold Feeds_Add, Feeds_New in Hok. by rewrite E, Hp in Hok. }
    rewrite (Feeds_Add_new parse _ _ _ _ E Hp) in *. simpl in *.
    eexists. split; [apply Hex; by rewrite lookup_insert_eq|].
    rewrite alter_insert_eq. split; [rewrite chatsOf_insert_eq; simpl; set_solver|].
    split; [done|]. intros ? _ [= <-]. unfold Feed_Rm, NewFeed. simpl.
    do 2 f_equal. set_solver.
Qed.

Lemma Feeds_Rm_after_Add_witness :
  "http://a.test/rss" ≠ "" /\
  (Feeds_Add exampleParser "http://a.test/rss" 9 NewFeeds).1 = None /\
  exists f2,
    Feeds_Rm ToLowerASCII [] "http://a.test/rss" "x" 9
      (Feeds_Add exampleParser "http://a.test/rss" 9 NewFeeds).2 = (None, f2) /\
    9 ∉ chatsOf f2 "http://a.test/rss".
Proof.
  assert (H1 : "http://a.test/rss" ≠ "") by discriminate.
  assert (H2 : (Feeds_Add exampleParser "http://a.test/rss" 9 NewFeeds).1 = None)
    by reflexivity.
  split; [exact H1|]. split; [exact H2|].
  destruct (Feeds_Rm_after_Add exampleParser ToLowerASCII [] "http://a.test/rss" "x" 9
              NewFeeds H1 H2) as (f2 & Hrm & Hc & _).
  exists f2. exact (conj Hrm Hc).
Defined.

(** X5: [List] gives one line for every feed the chat is a subscriber of,
    whatever the order the registry is ranged over: a line is listed exactly
    when it is the title and url of such a feed, there are as many lines as
    such feeds, and two orders give the same lines up to their order. *)
Theorem Feeds_List_spec f order order' cid :
  rangesOver f order -> rangesOver f order' ->
  (forall line, line ∈ Feeds_List order cid <->
     exists url feed, f !! url = Some feed /\ cid ∈ Chats feed /\
                      line = Title feed ++ ": " ++ url) /\
  length (Feeds_List order cid) = size (filter (fun p => cid ∈ Chats p.2) f) /\
  Feeds_List order cid ≡ₚ Feeds_List order' cid.
Proof.
  intros Ho Ho'. unfold rangesOver in *. split; [|split].
  - intros line. unfold Feeds_List. rewrite list_elem_of_fmap. split.
    + intros ([u feed] & -> & Hin). apply list_elem_of_filter in Hin as [Hc Hin].
      rewrite Ho in Hin. apply elem_of_map_to_list in Hin. eauto.
    + intros (u & feed & Hu & Hc & ->). exists (u, feed). split; [done|].
      apply list_elem_of_filter. split; [done|]. rewrite Ho. by apply elem_of_map_to_list.
  - unfold Feeds_List. rewrite length_fmap, Ho, <- length_map_to_list, map_filter_alt.
    rewrite map_to_list_to_map; [done|].
    apply (sublist_NoDup _ ((map_to_list f).*1)); [apply NoDup_fst_map_to_list|].
    apply fmap_sublist, sublist_filter.
  - unfold Feeds_List. by rewrite Ho, Ho'.
Qed.

Lemma Feeds_List_spec_witness :
  rangesOver exampleFeeds (map_to_list exampleFeeds) /\
  rangesOver exampleFeeds (reverse (map_to_list exampleFeeds)) /\
  Feeds_List (map_to_list exampleFeeds) 1 ≡ₚ Feeds_List (reverse (map_to_list exampleFeeds)) 1.
Proof.
  assert (H1 : rangesOver exampleFeeds (map_to_list exampleFeeds))
    by (unfold rangesOver; reflexivity).
  assert (H2 : rangesOver exampleFeeds (reverse (map_to_list exampleFeeds)))
    by (unfold rangesOver; apply reverse_Permutation).
  split; [exact H1|]. split; [exact H2|].
  exact (proj2 (proj2 (Feeds_List_spec exampleFeeds _ _ 1 H1 H2))).
Defined.


(** ** The seen-set store between the revisions *)

Lemma CheckSeen_made cid s : is_Some (seenAt (CheckSeen cid s) cid).
Proof.
  unfold CheckSeen. destruct (seenAt s cid) as [m|] eqn:E.
  - rewrite E. eauto.
  - rewrite seenAt_insert_eq. eauto.
Qed.

(** X6: [CheckSeen] makes the map of the channel and nothing else: no channel
    gains or loses a key, a second call changes nothing, and [MarkSeen]
    gives the same result with or without it. *)
Theorem CheckSeen_keeps cid s :
  is_Some (seenAt (CheckSeen cid s) cid) /\
  (forall c, keysOf (CheckSeen cid s) c = keysOf s c) /\
  CheckSeen cid (CheckSeen cid s) = CheckSeen cid s /\
  (forall k, MarkSeen cid k (CheckSeen cid s) = MarkSeen cid k s).
Proof.
  split; [apply CheckSeen_made|]. unfold CheckSeen, MarkSeen, keysOf.
  destruct (seenAt s cid) as [m|] eqn:E.
  - rewrite !E. done.
  - rewrite !seenAt_insert_eq. split; [|done]. intros c.
    destruct (decide (c = cid)) as [->|Hne].
    + by rewrite seenAt_insert_eq, E.
    + by rewrite seenAt_insert_ne.
Qed.

Lemma MarkSeen_made cid k s : is_Some (seenAt (MarkSeen cid k s).2 cid).
Proof.
  unfold MarkSeen. destruct (seenAt s cid) as [m|] eqn:E.
  - rewrite E. destruct (bool_decide (k ∈ m)); simpl.
    + rewrite E. eauto.
    + rewrite seenAt_insert_eq. eauto.
  - rewrite seenAt_insert_eq. rewrite bool_decide_eq_false_2 by set_solver. simpl.
    rewrite seenAt_insert_eq. eauto.
Qed.

Lemma scanItems0_made ts cid items :
  forall st, is_Some (seenAt st.1 cid) ->
  scanItems0 ts cid st items = scanItems ts cid st items.
Proof.
  induction items as [|i items IH]; intros st [m Hm]; simpl; [done|].
  rewrite (scanItem0_made _ _ _ _ _ Hm).
  destruct (scanItem ts cid st i) as [st'|] eqn:E; simpl; [|done].
  apply IH. unfold scanItem in E. destruct (keyOf i) as [k|]; simpl in E; [|done].
  pose proof (MarkSeen_made cid k st.1) as Hmade.
  destruct (MarkSeen cid k st.1) as [seen s']. simpl in *. by simplify_eq.
Qed.

(** X7: The loop of the earlier revision is the loop of [main.go] on a channel
    that [CheckSeen] was called for; on a channel without a map it panics at
    the first item, which is unseen. *)
Theorem scanItems0_needs_CheckSeen ts cid s q items :
  scanItems0 ts cid (CheckSeen cid s, q) items = scanItems ts cid (CheckSeen cid s, q) items /\
  (seenAt s cid = None ->
   forall i rest, hasTimestamp i -> scanItems0 ts cid (s, q) (i :: rest) = None).
Proof.
  split.
  - apply scanItems0_made. apply CheckSeen_made.
  - intros Hnil i rest Hi. apply keyOf_hasTimestamp in Hi as [k Hk]. simpl.
    by rewrite (scanItem0_nil_panics ts cid (s, q) i k Hnil Hk).
Qed.

(** ** One cycle over all feeds *)

Lemma MarkSeen_present cid k s : k ∈ keysOf s cid -> MarkSeen cid k s = (true, s).
Proof.
  unfold keysOf, MarkSeen. destruct (seenAt s cid) as [m|] eqn:E; simpl; [|set_solver].
  intros Hk. rewrite E. by rewrite bool_decide_eq_true_2.
Qed.

Lemma scanItems_seen ts cid items :
  forall st,
  Forall (fun i => exists k, keyOf i = Some k /\ k ∈ keysOf st.1 cid) items ->
  scanItems ts cid st items = Some st.
Proof.
  induction items as [|i items IH]; intros [s q] Hall; simpl; [done|].
  apply Forall_cons in Hall as [(k & Hk & Hin) Hall]. simpl in *.
  unfold scanItem. rewrite Hk. simpl. rewrite (MarkSeen_present _ _ _ Hin). simpl.
  by apply IH.
Qed.

Lemma first_occurrence items k :
  k ∈ keysOfItems items ->
  exists j i, items !! j = Some i /\ keyOf i = Some k /\ k ∉ keysOfItems (take j items).
Proof.
  unfold keysOfItems. induction items as [|i items IH]; simpl; [by intros ?%elem_of_nil|].
  destruct (keyOf i) as [k'|] eqn:E; simpl.
  - destruct (decide (k' = k)) as [->|Hne].
    + intros _. exists 0%nat, i. simpl. split; [done|]. split; [done|]. apply not_elem_of_nil.
    + intros Hin. apply elem_of_cons in Hin as [->|Hin]; [done|].
      destruct (IH Hin) as (j & i' & Hj & Hk & Hn).
      exists (S j), i'. simpl. rewrite E. simpl. split; [done|]. split; [done|].
      set_solver.
  - intros Hin. destruct (IH Hin) as (j & i' & Hj & Hk & Hn).
    exists (S j), i'. simpl. rewrite E. simpl. done.
Qed.

Lemma item_key_offered items j i k :
  items !! j = Some i -> keyOf i = Some k -> k ∈ keysOfItems items.
Proof.
  intros Hj Hk. unfold keysOfItems. apply list_elem_of_omap. exists i.
  split; [by eapply list_elem_of_lookup_2|done].
Qed.

Lemma feedChats_inv ts items chats :
  Forall hasTimestamp items ->
  forall st,
  exists s' new,
    feedChats ts items chats st = Some (s', (st.2 ++ new)%list) /\
    (forall c k, k ∈ keysOf s' c <->
       k ∈ keysOf st.1 c \/ (c ∈ chats /\ k ∈ keysOfItems items)) /\
    (forall d, d ∈ new ->
       d.1 ∈ chats /\ (a d.2 ∉ keysOf st.1 d.1) /\ keyLess ts (a d.2) = true /\
       a d.2 ∈ keysOfItems items /\ it d.2 ∈ items /\ keyOf (it d.2) = Some (a d.2)) /\
    (forall c k, c ∈ chats -> k ∈ keysOfItems items -> k ∉ keysOf st.1 c ->
       keyLess ts k = true -> (c, k) ∈ delivered <$> new) /\
    NoDup (delivered <$> new).
Proof.
  intros Hall. induction chats as [|cid chats IH]; intros st.
  { exists st.1, []. simpl. rewrite app_nil_r. split; [by destruct st|].
    split; [set_solver|]. split; [by intros d ?%elem_of_nil|].
    split; [by intros c k ?%elem_of_nil|constructor]. }
  simpl.
  destruct (scanItems_inv ts cid items Hall st.1 []) as (s1 & q & -> & Hkeys & Hoth & Hmem & Hnd).
  simpl.
  destruct (IH (s1, (st.2 ++ emit cid q)%list)) as (s' & new & -> & Hk' & Hnew & Hcomp & Hnd').
  simpl in *. exists s', (emit cid q ++ new)%list. rewrite app_assoc. split; [done|].
  assert (K1 : forall c k, k ∈ keysOf s1 c <->
            k ∈ keysOf st.1 c \/ (c = cid /\ k ∈ keysOfItems items)).
  { intros c k. destruct (decide (c = cid)) as [->|Hne].
    - rewrite Hkeys, elem_of_union, elem_of_list_to_set. naive_solver.
    - rewrite Hoth by done. naive_solver. }
  assert (Hq : forall d, d ∈ emit cid q <->
            d.1 = cid /\ d.2 ∈ q).
  { intros [c x]. unfold emit. rewrite list_elem_of_fmap. simpl. split.
    - intros (y & [= -> ->] & Hy). split; [done|].
      by rewrite (sortSlice_Permutation hLess q) in Hy.
    - intros [-> Hx]. exists x. split; [done|].
      by rewrite (sortSlice_Permutation hLess q). }
  split; [|split; [|split]].
  - intros c k. rewrite Hk', K1, elem_of_cons. naive_solver.
  - intros d Hd. apply elem_of_app in Hd as [Hd|Hd].
    + apply Hq in Hd as [Hc Hx]. apply Hmem in Hx as (j & Hj & Hkx & Hs & _ & Hl).
      rewrite Hc. split; [by left|]. split; [done|]. split; [done|].
      split; [by eapply item_key_offered|]. split; [by eapply list_elem_of_lookup_2|done].
    + destruct (Hnew d Hd) as (Hc & Hs & Hl & Hin & Hit & Hkd).
      split; [by right|]. split; [|done]. intros Hs'. apply Hs, K1. by left.
  - intros c k Hc Hk Hs Hl. rewrite fmap_app, elem_of_app.
    destruct (decide (c = cid)) as [->|Hne].
    + left. destruct (first_occurrence items k Hk) as (j & i & Hj & Hki & Hfirst).
      apply list_elem_of_fmap. exists (cid, {| a := k; it := i |}). split; [done|].
      apply Hq. split; [done|]. apply Hmem. exists j. done.
    + right. apply Hcomp; [set_solver|done| |done]. rewrite K1. naive_solver.
  - rewrite fmap_app. apply NoDup_app. split; [|split; [|done]].
    + unfold emit. rewrite <- list_fmap_compose.
      apply (NoDup_fmap_1 snd). rewrite <- list_fmap_compose.
      assert (Hext : (snd ∘ (delivered ∘ (fun x : h => (cid, x)))) <$> sortSlice hLess q
                     = a <$> sortSlice hLess q) by done.
      rewrite Hext. by rewrite (sortSlice_Permutation hLess q).
    + intros [c k] H1 H2. apply list_elem_of_fmap in H1 as ([c1 x1] & E1 & Hd1).
      apply list_elem_of_fmap in H2 as ([c2 x2] & E2 & Hd2).
      unfold delivered in E1, E2. simpl in E1, E2.
      apply Hq in Hd1 as [Hc1 Hx1]. simpl in Hc1, Hx1.
      apply Hmem in Hx1 as (j & Hj & Hkx & _).
      destruct (Hnew _ Hd2) as (_ & Hs2 & _). simpl in Hs2. apply Hs2.
      simplify_eq. apply K1. right. split; [done|]. rewrite H0.
      by eapply item_key_offered.
Qed.


Lemma offered_nil parse c k : ¬ offered parse [] c k.
Proof. intros (url & chats & feed & Hin & _). by apply elem_of_nil in Hin. Qed.

Lemma offered_cons parse url chats order c k :
  offered parse ((url, chats) :: order) c k <->
  (exists feed, parsed parse url feed /\ c ∈ chats /\ k ∈ keysOfItems (gofeed.Items feed)) \/
  offered parse order c k.
Proof.
  unfold offered. split.
  - intros (u & cs & feed & Hin & Hp & Hc & Hk).
    apply elem_of_cons in Hin as [[= -> ->]|Hin]; [left; eauto|right; eauto 10].
  - intros [(feed & Hp & Hc & Hk)|(u & cs & feed & Hin & Hp & Hc & Hk)].
    + exists url, chats, feed. split; [by left|done].
    + exists u, cs, feed. split; [by right|done].
Qed.

Lemma runTasks_inv parse ts order :
  allTimestamped parse ->
  forall st,
  exists s' new,
    runTasks parse ts order st = Some (s', (st.2 ++ new)%list) /\
    (forall c k, k ∈ keysOf s' c <-> k ∈ keysOf st.1 c \/ offered parse order c k) /\
    (forall d, d ∈ new ->
       (a d.2 ∉ keysOf st.1 d.1) /\ keyLess ts (a d.2) = true /\
       offered parse order d.1 (a d.2) /\ keyOf (it d.2) = Some (a d.2)) /\
    (forall c k, offered parse order c k -> k ∉ keysOf st.1 c ->
       keyLess ts k = true -> (c, k) ∈ delivered <$> new) /\
    NoDup (delivered <$> new).
Proof.
  intros Hall. induction order as [|[url chats] order IH]; intros st.
  { exists st.1, []. simpl. rewrite app_nil_r. split; [by destruct st|].
    split; [intros c k; pose proof (offered_nil parse c k); naive_solver|].
    split; [by intros d ?%elem_of_nil|].
    split; [intros c k H; by apply offered_nil in H|constructor]. }
  simpl. unfold feedTask. destruct (parse url) as [err|feed] eqn:Hp; simpl.
  - destruct (IH st) as (s' & new & -> & Hk & Hnew & Hcomp & Hnd).
    exists s', new. split; [done|].
    assert (Hoff : forall c k, offered parse ((url, chats) :: order) c k <->
              offered parse order c k).
    { intros c k. rewrite offered_cons. split; [|by right].
      intros [(feed & Hf & _)|H]; [|done]. unfold parsed in Hf. congruence. }
    split; [intros c k; by rewrite Hk, Hoff|].
    split; [intros d Hd; rewrite Hoff; by apply Hnew|].
    split; [intros c k; rewrite Hoff; by apply Hcomp|done].
  - destruct (feedChats_inv ts (gofeed.Items feed) chats (Hall url feed Hp) st)
      as (s1 & new1 & -> & K1 & Hnew1 & Hcomp1 & Hnd1). simpl.
    destruct (IH (s1, (st.2 ++ new1)%list)) as (s' & new & -> & Hk & Hnew & Hcomp & Hnd).
    simpl in *. exists s', (new1 ++ new)%list. rewrite app_assoc. split; [done|].
    assert (Hoff : forall c k, offered parse ((url, chats) :: order) c k <->
              (c ∈ chats /\ k ∈ keysOfItems (gofeed.Items feed)) \/ offered parse order c k).
    { intros c k. rewrite offered_cons. split.
      - intros [(feed' & Hf & Hc & Hin)|H]; [left|by right].
        unfold parsed in Hf. rewrite Hp in Hf. injection Hf as <-. by split.
      - intros [[Hc Hin]|H]; [left; by exists feed|by right]. }
    split; [|split; [|split]].
    + intros c k. rewrite Hk, K1, Hoff. naive_solver.
    + intros d Hd. rewrite Hoff. apply elem_of_app in Hd as [Hd|Hd].
      * destruct (Hnew1 d Hd) as (Hc & Hs & Hl & Hin & _ & Hkd). naive_solver.
      * destruct (Hnew d Hd) as (Hs & Hl & Ho & Hkd).
        split; [|naive_solver]. intros Hs'. apply Hs, K1. by left.
    + intros c k Ho Hs Hl. rewrite fmap_app, elem_of_app. apply Hoff in Ho.
      destruct (decide (c ∈ chats /\ k ∈ keysOfItems (gofeed.Items feed))) as [[Hc Hin]|Hn].
      * left. by apply Hcomp1.
      * right. apply Hcomp; [naive_solver| |done]. rewrite K1. naive_solver.
    + rewrite fmap_app. apply NoDup_app. split; [done|]. split; [|done].
      intros [c k] H1 H2. apply list_elem_of_fmap in H1 as ([c1 x1] & E1 & Hd1).
      apply list_elem_of_fmap in H2 as ([c2 x2] & E2 & Hd2).
      unfold delivered in E1, E2. simpl in E1, E2.
      destruct (Hnew1 _ Hd1) as (Hc & _ & _ & Hin & _). simpl in Hc, Hin.
      destruct (Hnew _ Hd2) as (Hs2 & _). simpl in Hs2. apply Hs2.
      simplify_eq. apply K1. right. split; [done|]. congruence.
Qed.

Lemma update_runs parse now order s :
  allTimestamped parse ->
  exists s' out,
    update parse now order s = Some (s', out) /\
    forall c k, k ∈ keysOf s' c <-> k ∈ keysOf s c \/ offered parse order c k.
Proof.
  intros Hall. unfold update. rewrite cutoffKey_eq. simpl.
  destruct (runTasks_inv parse (FormatRFC3339 (cutoffTime now) ++ "-" ++ "") order Hall (s, []))
    as (s' & new & -> & Hk & _). simpl. eauto.
Qed.

(** X8: What a cycle leaves in the seen-set store: a key is in the set of a
    channel afterwards exactly when it was before or is the key of an item
    of a feed that parsed and that the channel is a chat of.  So no set
    loses a key, and the set of a channel that is a chat of no feed is as
    before. *)
Theorem update_seen_exact parse now order s :
  allTimestamped parse ->
  exists s' out,
    update parse now order s = Some (s', out) /\
    (forall c k, k ∈ keysOf s' c <-> k ∈ keysOf s c \/ offered parse order c k) /\
    (forall c, keysOf s c ⊆ keysOf s' c) /\
    (forall c, (forall url chats, (url, chats) ∈ order -> c ∉ chats) ->
       keysOf s' c = keysOf s c).
Proof.
  intros Hall. destruct (update_runs parse now order s Hall) as (s' & out & Hrun & Hk).
  exists s', out. split; [done|]. split; [done|]. split.
  - intros c k Hin. apply Hk. by left.
  - intros c Hc. apply set_eq. intros k. rewrite Hk. split; [|by left].
    intros [?|(url & chats & feed & Hin & _ & Hcc & _)]; [done|]. by destruct (Hc url chats Hin).
Qed.

(** X9: What a cycle sends: a delivery to a channel is the key of an item of a
    feed of that channel, was not in the seen-set of the channel before the
    cycle and sorts after the cutoff key; every such key is delivered; and
    no key is delivered twice to a channel, also when two feeds of the
    channel carry it. *)
Theorem update_deliveries parse now order s :
  allTimestamped parse ->
  exists ts s' out,
    cutoffKey now = Some ts /\
    update parse now order s = Some (s', out) /\
    (forall c k, (c, k) ∈ delivered <$> out <->
       offered parse order c k /\ (k ∉ keysOf s c) /\ keyLess ts k = true) /\
    (forall d, d ∈ out -> keyOf (it d.2) = Some (a d.2)) /\
    NoDup (delivered <$> out).
Proof.
  intros Hall. unfold update. rewrite cutoffKey_eq. simpl.
  destruct (runTasks_inv parse (FormatRFC3339 (cutoffTime now) ++ "-" ++ "") order Hall (s, []))
    as (s' & new & -> & _ & Hnew & Hcomp & Hnd). simpl in *.
  eexists _, s', new. split; [done|]. split; [done|]. split; [|split; [|done]].
  - intros c k. split.
    + intros ([c1 x1] & E & Hd)%list_elem_of_fmap. unfold delivered in E. simpl in E.
      destruct (Hnew _ Hd) as (Hs & Hl & Ho & _). simpl in *. by simplify_eq.
    + intros (Ho & Hs & Hl). by apply Hcomp.
  - intros d Hd. by apply Hnew.
Qed.

Lemma feedChats_seen ts items chats :
  forall st,
  (forall c i, c ∈ chats -> i ∈ items -> exists k, keyOf i = Some k /\ k ∈ keysOf st.1 c) ->
  feedChats ts items chats st = Some st.
Proof.
  induction chats as [|cid chats IH]; intros [s out] Hseen; simpl; [done|].
  rewrite (scanItems_seen ts cid items (s, [])).
  - simpl. unfold emit, sortSlice. simpl. rewrite app_nil_r. apply IH.
    intros c i Hc Hi. apply Hseen; [by right|done].
  - apply Forall_forall. intros i Hi. apply Hseen; [by left|done].
Qed.

Lemma runTasks_seen parse ts order :
  allTimestamped parse ->
  forall st,
  (forall c k, offered parse order c k -> k ∈ keysOf st.1 c) ->
  runTasks parse ts order st = Some st.
Proof.
  intros Hall. induction order as [|[url chats] order IH]; intros st Hseen; simpl; [done|].
  assert (feedTask parse ts url chats st = Some st) as ->.
  { unfold feedTask. destruct (parse url) as [err|feed] eqn:Hp; [done|].
    apply feedChats_seen. intros c i Hc Hi.
    pose proof (Hall url feed Hp) as Ht. rewrite Forall_forall in Ht.
    destruct (proj2 (keyOf_hasTimestamp i) (Ht i Hi)) as [k Hk]. exists k. split; [done|].
    apply Hseen. exists url, chats, feed. split; [by left|]. split; [done|]. split; [done|].
    unfold keysOfItems. apply list_elem_of_omap. eauto. }
  simpl. apply IH. intros c k (u & cs & feed & Hin & Hrest). apply Hseen.
  exists u, cs, feed. split; [by right|done].
Qed.

(** X10: The next cycle over the same feeds sends nothing and leaves the store
    as it is, whatever the time it runs at. *)
Theorem update_twice parse now order s :
  allTimestamped parse ->
  exists s' out,
    update parse now order s = Some (s', out) /\
    forall now', update parse now' order s' = Some (s', []).
Proof.
  intros Hall.
  destruct (update_runs parse now order s Hall) as (s' & out & Hrun & Hk).
  exists s', out. split; [done|]. intros now'.
  unfold update. rewrite cutoffKey_eq. simpl.
  apply (runTasks_seen parse _ order Hall (s', [])). simpl.
  intros c k Ho. apply Hk. by right.
Qed.

Lemma exampleParser_allTimestamped : allTimestamped exampleParser.
Proof.
  intros url feed H. unfold parsed, exampleParser in H.
  destruct (String.eqb url "http://a.test/rss").
  - injection H as <-. repeat constructor; unfold hasTimestamp; simpl; eauto.
  - destruct (String.eqb url "http://b.test/rss"); [|discriminate H].
    injection H as <-. repeat constructor; unfold hasTimestamp; simpl; eauto.
Defined.

Lemma update_seen_exact_witness :
  allTimestamped exampleParser /\
  exists s' out,
    update exampleParser exampleNow [("http://a.test/rss", [1])] NewSeens = Some (s', out).
Proof.
  split; [exact exampleParser_allTimestamped|].
  destruct (update_seen_exact exampleParser exampleNow [("http://a.test/rss", [1])] NewSeens
              exampleParser_allTimestamped) as (s' & out & Hrun & _).
  exists s', out. exact Hrun.
Defined.

Lemma update_deliveries_witness :
  allTimestamped exampleParser /\
  exists s' out,
    update exampleParser exampleNow [("http://a.test/rss", [1])] NewSeens = Some (s', out) /\
    NoDup (delivered <$> out).
Proof.
  split; [exact exampleParser_allTimestamped|].
  destruct (update_deliveries exampleParser exampleNow [("http://a.test/rss", [1])] NewSeens
              exampleParser_allTimestamped) as (ts & s' & out & _ & Hrun & _ & _ & Hnd).
  exists s', out. exact (conj Hrun Hnd).
Defined.

Lemma update_twice_witness :
  allTimestamped exampleParser /\
  exists s' out,
    update exampleParser exampleNow [("http://a.test/rss", [1])] NewSeens = Some (s', out) /\
    update exampleParser exampleNow [("http://a.test/rss", [1])] s' = Some (s', []).
Proof.
  split; [exact exampleParser_allTimestamped|].
  destruct (update_twice exampleParser exampleNow [("http://a.test/rss", [1])] NewSeens
              exampleParser_allTimestamped) as (s' & out & Hrun & Hagain).
  exists s', out. exact (conj Hrun (Hagain exampleNow)).
Defined.


(** ** Keys and the cutoff *)

(** X11: Within one zone offset and the four-digit years, two items have the
    same key exactly when they have the same title and their timestamps fall
    in the same second. *)
Theorem same_article_iff title1 t1 title2 t2 :
  offsetOf t1 = offsetOf t2 ->
  fourDigitYear (localSec t1) -> fourDigitYear (localSec t2) ->
  NewArticleKey title1 (Some t1) None = NewArticleKey title2 (Some t2) None <->
  unixSec t1 = unixSec t2 /\ title1 = title2.
Proof.
  intros Hoff H1 H2.
  change (Some (FormatRFC3339 t1 ++ "-" ++ title1) = Some (FormatRFC3339 t2 ++ "-" ++ title2)
          <-> unixSec t1 = unixSec t2 /\ title1 = title2).
  split.
  - intros E. injection E as E. pose proof (key_compare title1 t1 title2 t2 Hoff H1 H2) as C.
    rewrite E, string_compare_refl in C.
    destruct (Z.compare_spec (unixSec t1) (unixSec t2)) as [Es|?|?]; simpl in C; [|done..].
    split; [done|]. symmetry in C. by apply String.compare_eq_iff in C.
  - intros [Es ->]. pose proof (key_compare title2 t1 title2 t2 Hoff H1 H2) as C.
    rewrite Es, Z.compare_refl, string_compare_refl in C. simpl in C.
    apply String.compare_eq_iff in C. by rewrite C.
Qed.

Lemma same_article_iff_witness :
  let t1 := {| unixSec := 1577836800; nsec := 0; loc := UTC |} in
  let t2 := {| unixSec := 1577836800; nsec := 999; loc := UTC |} in
  NewArticleKey "a" (Some t1) None = NewArticleKey "a" (Some t2) None.
Proof.
  intros t1 t2. apply (same_article_iff "a" t1 "a" t2).
  - reflexivity.
  - unfold fourDigitYear. vm_compute. split; [discriminate|reflexivity].
  - unfold fourDigitYear. vm_compute. split; [discriminate|reflexivity].
  - split; reflexivity.
Defined.

(** X12: The cutoff of a cycle is 691200 seconds, eight days, before [now], with
    the same fraction of a second and in the same location; the cutoff key
    is its RFC3339 text followed by a hyphen. *)
Theorem cutoff_eight_days now :
  0 <= nsec now < 1000000000 ->
  cutoffTime now = {| unixSec := unixSec now - 691200; nsec := nsec now; loc := loc now |} /\
  Before (cutoffTime now) now = true /\
  cutoffKey now
  = Some (FormatRFC3339 {| unixSec := unixSec now - 691200; nsec := nsec now; loc := loc now |}
          ++ "-").
Proof.
  intros Hn.
  assert (E : cutoffTime now
              = {| unixSec := unixSec now - 691200; nsec := nsec now; loc := loc now |}).
  { unfold cutoffTime, Add, Hour.
    replace (Z.quot (-192 * (3600 * 1000000000)) 1000000000) with (-691200) by reflexivity.
    replace (Z.rem (-192 * (3600 * 1000000000)) 1000000000) with 0 by reflexivity.
    replace (nsec now + 0) with (nsec now) by lia.
    destruct (Z.leb_spec 1000000000 (nsec now)); [lia|].
    destruct (Z.ltb_spec (nsec now) 0); [lia|]. f_equal; lia. }
  split; [done|]. split.
  - rewrite E. unfold Before. simpl. lia.
  - rewrite cutoffKey_eq, E. done.
Qed.

Lemma cutoff_eight_days_witness :
  0 <= nsec exampleNow < 1000000000 /\
  cutoffKey exampleNow = Some "2020-01-01T00:00:00Z-".
Proof.
  assert (H : 0 <= nsec exampleNow < 1000000000) by (simpl; lia).
  split; [exact H|].
  exact (eq_trans (proj2 (proj2 (cutoff_eight_days exampleNow H))) eq_refl).
Defined.

(** ** The codec of the earlier revision, continued *)

Lemma markAll_made m0 arr :
  Rev0Json.markAll (Some m0) arr = Rev0Json.Done (Some (m0 ∪ list_to_set arr)).
Proof.
  revert m0. induction arr as [|k arr IH]; intros m0; simpl.
  - by rewrite (right_id_L ∅ (∪)).
  - rewrite IH. do 2 f_equal. set_solver.
Qed.

(** X13: [Seen.UnmarshalJSON] reads what [Seen.MarshalJSON] wrote into the map
    it is called on: a made map gains the keys; a nil map stays nil for the
    empty array and is assigned into, a panic, for any other. *)
Theorem Rev0_codec range us :
  (forall m, range m ≡ₚ elements m) ->
  (forall m0, Rev0Json.UnmarshalJSON (Some m0) (Rev0Json.MarshalJSON range us)
              = Rev0Json.Done (Some (m0 ∪ default ∅ us))) /\
  (default ∅ us = ∅ ->
   Rev0Json.UnmarshalJSON None (Rev0Json.MarshalJSON range us) = Rev0Json.Done None) /\
  (default ∅ us ≠ ∅ ->
   Rev0Json.UnmarshalJSON None (Rev0Json.MarshalJSON range us) = Rev0Json.Panic).
Proof.
  intros Hr. split; [|split].
  - intros m0. unfold Rev0Json.UnmarshalJSON, Rev0Json.MarshalJSON.
    rewrite decArr_strings. simpl. rewrite markAll_made. do 3 f_equal.
    destruct us as [m|]; simpl; [|done]. rewrite (Hr m). apply list_to_set_elements_L.
  - intros He. rewrite UnmarshalJSON_MarshalJSON by done. by rewrite bool_decide_eq_true_2.
  - intros Hne. rewrite UnmarshalJSON_MarshalJSON by done. by rewrite bool_decide_eq_false_2.
Qed.

Lemma Rev0_codec_witness :
  (forall m : gset ArticleKey, elements m ≡ₚ elements m) /\
  Rev0Json.UnmarshalJSON None (Rev0Json.MarshalJSON elements None) = Rev0Json.Done None.
Proof.
  assert (H : forall m : gset ArticleKey, elements m ≡ₚ elements m) by (intros m; reflexivity).
  split; [exact H|].
  exact (proj1 (proj2 (Rev0_codec elements None H)) eq_refl).
Defined.

Lemma decSeensEntries_empty range (l : list (Z * Seen)) acc :
  (forall m, range m ≡ₚ elements m) ->
  Forall (fun p => int64 p.1) l ->
  Forall (fun p => default ∅ p.2 = ∅) l ->
  Rev0Json.decSeensEntries
    ((fun p => (FormatInt p.1, Rev0Json.MarshalJSON range p.2)) <$> l) acc
  = Rev0Json.Done (foldl (fun m kv => <[kv.1 := kv.2]> m) acc
                     (prod_map id (fun _ : Seen => None : Seen) <$> l)).
Proof.
  intros Hr Hi He. revert acc. induction l as [|[c u] l IH]; intros acc; simpl; [done|].
  apply Forall_cons in Hi as [Hc Hi]. apply Forall_cons in He as [Hu He]. simpl in *.
  rewrite ParseInt_FormatInt by done. simpl.
  rewrite UnmarshalJSON_MarshalJSON by done. rewrite bool_decide_eq_true_2 by done.
  simpl. by apply IH.
Qed.

(** X14: What the earlier revision reads back from the seen-sets it wrote: when
    no channel has seen an article, every channel comes back with a nil map;
    when some channel has seen one, decoding panics. *)
Theorem Rev0_Seens_codec range (s : Seens) :
  (forall m, range m ≡ₚ elements m) ->
  (forall cid us, s !! cid = Some us -> int64 cid) ->
  ((forall cid us, s !! cid = Some us -> default ∅ us = ∅) ->
   Rev0Json.decSeens (Rev0Json.encSeens range s)
   = Rev0Json.Done ((fun _ : Seen => None : Seen) <$> s)) /\
  (forall cid m, s !! cid = Some (Some m) -> m ≠ ∅ ->
   Rev0Json.decSeens (Rev0Json.encSeens range s) = Rev0Json.Panic).
Proof.
  intros Hr Hs. unfold Rev0Json.encSeens, Rev0Json.decSeens.
  destruct (fmap_Permutation_inv _ _ _ (sortMembers_perm
    ((fun p => (FormatInt p.1, Rev0Json.MarshalJSON range p.2)) <$> map_to_list s)))
    as (l & -> & Hl).
  assert (Hall : Forall (fun p : Z * Seen => int64 p.1) l).
  { apply Forall_forall. intros [c u] Hc. rewrite Hl in Hc.
    apply elem_of_map_to_list in Hc. by eapply Hs. }
  split.
  - intros He. rewrite decSeensEntries_empty; [|done|done|].
    + f_equal.
      assert (Hnd : NoDup (prod_map id (fun _ : Seen => None : Seen) <$> l).*1).
      { rewrite <- list_fmap_compose.
        assert (Hfst : (fst ∘ prod_map id (fun _ : Seen => None : Seen)) <$> l = l.*1).
        { apply list_fmap_ext. by intros ? []. }
        rewrite Hfst, Hl. apply NoDup_fst_map_to_list. }
      pose proof (storeEntries_NoDup _ Hnd) as Hst. unfold storeEntries in Hst.
      rewrite Hst, list_to_map_fmap. f_equal.
      rewrite <- (list_to_map_to_list s). apply list_to_map_proper; [|done].
      rewrite Hl. apply NoDup_fst_map_to_list.
    + apply Forall_forall. intros [c u] Hc. rewrite Hl in Hc.
      apply elem_of_map_to_list in Hc. by eapply He.
  - intros cid m Hcid Hm.
    assert ((cid, Some m) ∈ l) as Hin by (rewrite Hl; by apply elem_of_map_to_list).
    destruct (first_such (fun p : Z * Seen => default ∅ p.2 ≠ ∅) l _ Hin Hm)
      as (l1 & [c u] & l2 & -> & Hl1 & Hu).
    apply Forall_app in Hall as [Hall1 Hall2]. apply Forall_cons in Hall2 as [Hc _].
    rewrite (decSeensEntries_panics range l1 l2 c u); try done.
    eapply Forall_impl; [exact Hl1|]. intros p Hp. simpl in Hp.
    by destruct (decide (default ∅ p.2 = ∅)).
Qed.

Lemma Rev0_Seens_codec_witness :
  Rev0Json.decSeens (Rev0Json.encSeens elements (CheckSeen 5 NewSeens))
  = Rev0Json.Done ((fun _ : Seen => None : Seen) <$> CheckSeen 5 NewSeens).
Proof.
  assert (H1 : forall m : gset ArticleKey, elements m ≡ₚ elements m) by (intros m; reflexivity).
  assert (H2 : forall cid us, CheckSeen 5 NewSeens !! cid = Some us -> int64 cid).
  { intros cid us H. change (CheckSeen 5 NewSeens) with (<[5 := Some ∅]> NewSeens : Seens) in H.
    apply lookup_insert_Some in H as [[<- _]|[_ H]]; [by vm_compute|].
    unfold NewSeens in H. by rewrite lookup_empty in H. }
  assert (H3 : forall cid us, CheckSeen 5 NewSeens !! cid = Some us -> default ∅ us = ∅).
  { intros cid us H. change (CheckSeen 5 NewSeens) with (<[5 := Some ∅]> NewSeens : Seens) in H.
    apply lookup_insert_Some in H as [[_ <-]|[_ H]]; [done|].
    unfold NewSeens in H. by rewrite lookup_empty in H. }
  exact (proj1 (Rev0_Seens_codec elements (CheckSeen 5 NewSeens) H1 H2) H3).
Defined.

(** ** The command interpreter *)

Lemma Feeds_Add_lookup parse url cid (f : Feeds) u :
  (Feeds_Add parse url cid f).2 !! u
  = if decide (u = url) then
      match f !! url with
      | Some feed => Some (Feed_Add cid feed)
      | None => match parse url with
                | inr g => Some (Feed_Add cid (NewFeed (gofeed.FeedTitle g)))
                | inl _ => None
                end
      end
    else f !! u.
Proof.
  unfold Feeds_Add, Feeds_New.
  destruct (f !! url) as [feed|] eqn:E; [|destruct (parse url) as [e|g]]; simpl;
    destruct (decide (u = url)) as [->|Hne].
  - by rewrite lookup_alter_eq, E.
  - by rewrite lookup_alter_ne.
  - done.
  - done.
  - by rewrite lookup_alter_eq, lookup_insert_eq.
  - by rewrite lookup_alter_ne, lookup_insert_ne.
Qed.

Lemma Feeds_Add_chats parse url cid f u c :
  c ∈ chatsOf (Feeds_Add parse url cid f).2 u <->
  c ∈ chatsOf f u \/
  (c = cid /\ u = url /\ (is_Some (f !! u) \/ exists feed, parse u = inr feed)).
Proof.
  unfold chatsOf. rewrite Feeds_Add_lookup.
  destruct (decide (u = url)) as [->|Hne]; [|naive_solver].
  destruct (f !! url) as [feed|] eqn:E.
  - simpl. rewrite elem_of_union, elem_of_singleton. naive_solver.
  - destruct (parse url) as [e|g]; simpl.
    + rewrite elem_of_empty. split; [done|]. intros [[]|(_ & _ & [[? ?]|[? ?]])]; done.
    + rewrite elem_of_union, elem_of_singleton, elem_of_empty. naive_solver.
Qed.

Lemma Feeds_Add_is_Some parse url cid (f : Feeds) u :
  is_Some ((Feeds_Add parse url cid f).2 !! u) <->
  is_Some (f !! u) \/ (u = url /\ exists feed, parse u = inr feed).
Proof.
  rewrite Feeds_Add_lookup. destruct (decide (u = url)) as [->|Hne]; [|naive_solver].
  destruct (f !! url) as [feed|] eqn:E; [naive_solver|].
  destruct (parse url) as [e|g].
  - split; [by intros []|]. intros [[]|[_ []]]; done.
  - naive_solver.
Qed.

Lemma Feeds_Add_title parse url cid (f : Feeds) u feed :
  f !! u = Some feed ->
  Title <$> (Feeds_Add parse url cid f).2 !! u = Some (Title feed).
Proof.
  intros H. rewrite Feeds_Add_lookup. destruct (decide (u = url)) as [->|Hne].
  - by rewrite H.
  - by rewrite H.
Qed.

Lemma addAll_cons parse url urls cid f :
  addAll parse (url :: urls) cid f = addAll parse urls cid (Feeds_Add parse url cid f).2.
Proof. done. Qed.

Lemma addAll_chats parse urls cid c u :
  forall f,
    c ∈ chatsOf (addAll parse urls cid f) u <->
    c ∈ chatsOf f u \/
    (c = cid /\ u ∈ urls /\ (is_Some (f !! u) \/ exists feed, parse u = inr feed)).
Proof.
  induction urls as [|url urls IH]; intros f.
  - simpl. split; [by left|]. intros [?|(_ & H & _)]; [done|]. by apply elem_of_nil in H.
  - rewrite addAll_cons, IH, Feeds_Add_chats, Feeds_Add_is_Some, elem_of_cons.
    naive_solver.
Qed.

Lemma addAll_title parse urls cid u :
  forall (f : Feeds) feed,
    f !! u = Some feed -> Title <$> addAll parse urls cid f !! u = Some (Title feed).
Proof.
  induction urls as [|url urls IH]; intros f feed H.
  - simpl. by rewrite H.
  - rewrite addAll_cons.
    pose proof (Feeds_Add_title parse url cid f u feed H) as Ht.
    destruct ((Feeds_Add parse url cid f).2 !! u) as [feed1|] eqn:E; [|done].
    simpl in Ht. injection Ht as Ht. rewrite <- Ht. by apply IH.
Qed.

Lemma Feeds_Rm_lookup ToLower order url title cid (f : Feeds) u :
  (Feeds_Rm ToLower order url title cid f).2 !! u = f !! u \/
  (Feeds_Rm ToLower order url title cid f).2 !! u = Feed_Rm cid <$> f !! u.
Proof.
  destruct (Feeds_Rm_cases ToLower order url title cid f)
    as [(u0 & _ & ->)|[(u0 & _ & ->)| ->]]; simpl; [|by left..].
  destruct (decide (u = u0)) as [->|Hne].
  - right. by rewrite lookup_alter_eq.
  - left. by rewrite lookup_alter_ne.
Qed.

Lemma Feeds_Rm_chats ToLower order url title cid f u c :
  c ≠ cid ->
  c ∈ chatsOf (Feeds_Rm ToLower order url title cid f).2 u <-> c ∈ chatsOf f u.
Proof.
  intros Hne. unfold chatsOf.
  destruct (Feeds_Rm_lookup ToLower order url title cid f u) as [-> | ->]; [done|].
  destruct (f !! u) as [feed|]; simpl; [|done]. set_solver.
Qed.

Lemma Feeds_Rm_title ToLower order url title cid (f : Feeds) u :
  Title <$> (Feeds_Rm ToLower order url title cid f).2 !! u = Title <$> f !! u.
Proof.
  destruct (Feeds_Rm_lookup ToLower order url title cid f u) as [-> | ->]; [done|].
  by destruct (f !! u).
Qed.

Lemma keysOf_CheckSeen cid s c : keysOf (CheckSeen cid s) c = keysOf s c.
Proof.
  unfold CheckSeen, keysOf. destruct (seenAt s cid) as [m|] eqn:E; [done|].
  destruct (decide (c = cid)) as [->|Hne].
  - by rewrite seenAt_insert_eq, E.
  - by rewrite seenAt_insert_ne.
Qed.

Lemma classify_sub w : classify w = CmdSub <-> w ∈ ["sub"; "subscribe"; "add"].
Proof. unfold classify. repeat case_bool_decide; naive_solver. Qed.

Lemma classify_unsub w : classify w = CmdUnsub <-> w ∈ ["unsub"; "unsubscribe"; "rm"].
Proof.
  unfold classify. repeat case_bool_decide; split; try done.
  intros H'. exfalso.
  repeat (apply elem_of_cons in H as [->|H]); try by apply elem_of_nil in H.
  all: by apply (bool_decide_pack _) in H'.
Qed.

Lemma classify_list w : classify w = CmdList <-> w ∈ ["list"; "show"; "subs"].
Proof.
  unfold classify. repeat case_bool_decide; split; try done.
  - intros H'. exfalso.
    repeat (apply elem_of_cons in H as [->|H]); try by apply elem_of_nil in H.
    all: by apply (bool_decide_pack _) in H'.
  - intros H'. exfalso.
    repeat (apply elem_of_cons in H0 as [->|H0]); try by apply elem_of_nil in H0.
    all: by apply (bool_decide_pack _) in H'.
Qed.

Lemma classify_update w : classify w = CmdUpdate <-> w = "update".
Proof.
  split; [|by intros ->].
  unfold classify. repeat case_bool_decide; try done. intros _.
  by apply list_elem_of_singleton.
Qed.

(** X15: What one update ends in.  It is skipped exactly when it carries no
    message or a message without a word; the handler panics exactly on the
    word [update] in a message without a sender; every other update is
    answered in the chat it came from, and a poll cycle is started only by
    the word [update] from the user seankhliao. *)
Theorem respond_outcome ToLower Fields range parse m st :
  (Respond ToLower Fields range parse m st = Ignored <->
   m = None \/ exists msg, m = Some msg /\ Fields (tapi.Text msg) = []) /\
  (Respond ToLower Fields range parse m st = Panicked <->
   exists msg w args,
     m = Some msg /\ Fields (tapi.Text msg) = w :: args /\
     TrimPrefix (ToLower w) "/" = "update" /\ tapi.From msg = None) /\
  (forall r, Respond ToLower Fields range parse m st = Replied r ->
   exists msg w args,
     m = Some msg /\ Fields (tapi.Text msg) = w :: args /\
     ChatID (reply r) = tapi.Chat msg /\
     (startsUpdate r = true <->
      TrimPrefix (ToLower w) "/" = "update" /\ tapi.From msg = Some "seankhliao")).
Proof.
  destruct m as [msg|].
  2:{ split; [naive_solver|]. split; [|done]. split; [done|]. by intros (? & ? & ? & ? & _). }
  destruct (Fields (tapi.Text msg)) as [|w args] eqn:EF.
  { simpl. rewrite EF. split; [naive_solver|]. split; [|done]. split; [done|].
    intros (? & ? & ? & ? & ? & _). simplify_eq. congruence. }
  remember (Respond ToLower Fields range parse (Some msg) st) as o eqn:Eo.
  assert (H : o ≠ Ignored /\
    (o = Panicked <-> TrimPrefix (ToLower w) "/" = "update" /\ tapi.From msg = None) /\
    (forall r, o = Replied r ->
       ChatID (reply r) = tapi.Chat msg /\
       (startsUpdate r = true <->
        TrimPrefix (ToLower w) "/" = "update" /\ tapi.From msg = Some "seankhliao"))).
  2:{ clear Eo. destruct H as (H1 & H2 & H3). split; [|split].
      - split; [done|]. intros [?|(msg' & ? & ?)]; [done|]. simplify_eq. congruence.
      - rewrite H2. split.
        + intros [? ?]. by exists msg, w, args.
        + intros (msg' & w' & args' & ? & ? & ? & ?). simplify_eq.
          assert (w' = w) by congruence. by subst.
      - intros r Hr. exists msg, w, args. destruct (H3 r Hr). done. }
  subst o. simpl. rewrite EF. split; [|split].
  - destruct (classify _); [destruct args..| |]; try done.
    destruct (tapi.From msg) as [user|]; [|done]. by destruct (String.eqb _ _).
  - destruct (classify (TrimPrefix (ToLower w) "/")) eqn:EC.
    1-3,5: split; [by destruct args|]; intros [Hu _]; apply classify_update in Hu; congruence.
    apply classify_update in EC. destruct (tapi.From msg) as [user|]; [|done].
    split; [by destruct (String.eqb _ _)|]. by intros [_ ?].
  - intros r. destruct (classify (TrimPrefix (ToLower w) "/")) eqn:EC.
    1-3,5: (intros Hr; assert (Hs : ChatID (reply r) = tapi.Chat msg /\ startsUpdate r = false)
             by (destruct args; unfold replyTo in Hr; by simplify_eq);
           destruct Hs as [? Hs]; split; [done|]; rewrite Hs; split; [done|];
           intros [Hu _]; apply classify_update in Hu; congruence).
    apply classify_update in EC. destruct (tapi.From msg) as [user|]; [|done].
    destruct (String.eqb_spec user "seankhliao") as [->|Hne]; unfold replyTo; intros Hr;
      simplify_eq; simpl; (split; [done|]).
    + done.
    + split; [done|]. intros [_ ?]. congruence.
Qed.

(** X16: Handling a message never touches the articles any chat has seen, never
    drops a feed from the registry or renames one, and never changes which
    feeds another chat is subscribed to. *)
Theorem respond_frame ToLower Fields range parse msg st r :
  Respond ToLower Fields range parse (Some msg) st = Replied r ->
  (forall c, keysOf (seens (newState r)) c = keysOf (seens st) c) /\
  (forall u feed, feeds st !! u = Some feed ->
     Title <$> feeds (newState r) !! u = Some (Title feed)) /\
  (forall c u, c ≠ tapi.Chat msg ->
     c ∈ chatsOf (feeds (newState r)) u <-> c ∈ chatsOf (feeds st) u).
Proof.
  simpl. destruct (Fields (tapi.Text msg)) as [|w args]; [done|].
  assert (Hsame : forall txt upd, replyTo (tapi.Chat msg) st txt upd = Replied r ->
    (forall c, keysOf (seens (newState r)) c = keysOf (seens st) c) /\
    (forall u feed, feeds st !! u = Some feed ->
       Title <$> feeds (newState r) !! u = Some (Title feed)) /\
    (forall c u, c ≠ tapi.Chat msg ->
       c ∈ chatsOf (feeds (newState r)) u <-> c ∈ chatsOf (feeds st) u)).
  { unfold replyTo. intros txt upd Hr. simplify_eq. simpl. split; [done|]. split; [|done].
    intros u feed H. by rewrite H. }
  destruct (classify _).
  - destruct args as [|u args]; [apply Hsame|]. unfold replyTo. intros Hr. simplify_eq. simpl.
    split; [apply keysOf_CheckSeen|]. rewrite <- addAll_cons.
    split; [intros u' feed; apply addAll_title|].
    intros c u' Hne. rewrite addAll_chats. naive_solver.
  - destruct args as [|u args]; [apply Hsame|]. unfold replyTo. intros Hr. simplify_eq. simpl.
    split; [done|]. split.
    + intros u' feed H. by rewrite Feeds_Rm_title, H.
    + intros c u' Hne. by apply Feeds_Rm_chats.
  - apply Hsame.
  - destruct (tapi.From msg) as [user|]; [|done]. destruct (String.eqb _ _); apply Hsame.
  - apply Hsame.
Qed.

(** X17: [sub] with arguments answers with the number of arguments, whatever
    becomes of them, makes the seen-set of the chat, and subscribes the chat
    to every argument that is a known feed or that fetches and parses; no
    other subscription changes. *)
Theorem respond_sub ToLower Fields range parse msg st w args :
  Fields (tapi.Text msg) = w :: args -> args ≠ [] ->
  TrimPrefix (ToLower w) "/" ∈ ["sub"; "subscribe"; "add"] ->
  exists r,
    Respond ToLower Fields range parse (Some msg) st = Replied r /\
    reply r = {| ChatID := tapi.Chat msg;
                 Text := "Subscribed to " ++ Itoa (length args) ++ " feeds" |} /\
    startsUpdate r = false /\
    is_Some (seenAt (seens (newState r)) (tapi.Chat msg)) /\
    forall c u,
      c ∈ chatsOf (feeds (newState r)) u <->
      c ∈ chatsOf (feeds st) u \/
      (c = tapi.Chat msg /\ u ∈ args /\
       (is_Some (feeds st !! u) \/ exists feed, parse u = inr feed)).
Proof.
  intros EF Ha Hw. apply classify_sub in Hw. simpl. rewrite EF, Hw.
  destruct args as [|u args]; [done|]. eexists. split; [reflexivity|]. simpl.
  split; [done|]. split; [done|]. split.
  - unfold CheckSeen. destruct (seenAt (seens st) (tapi.Chat msg)) as [m|] eqn:E.
    + rewrite E. eauto.
    + rewrite seenAt_insert_eq. eauto.
  - intros c u'. rewrite <- addAll_cons. apply addAll_chats.
Qed.

Lemma flushWord_nonempty cur : Forall (fun x => x ≠ "") (flushWord cur).
Proof. destruct cur; simpl; [constructor|]. by repeat constructor. Qed.

Lemma fieldsFrom_nonempty s : forall cur, Forall (fun x => x ≠ "") (fieldsFrom cur s).
Proof.
  induction s as [|c s IH]; intros cur; simpl.
  - apply flushWord_nonempty.
  - destruct (isSpaceASCII c); [|apply IH].
    apply Forall_app. split; [apply flushWord_nonempty|apply IH].
Qed.

Lemma FieldsASCII_nonempty s : Forall (fun x => x ≠ "") (FieldsASCII s).
Proof. apply fieldsFrom_nonempty. Qed.

(** X18: [unsub] of a url that is a key of the registry always succeeds: a word
    of the message is never empty, so the lookup by url is taken.  The chat
    leaves that feed's subscribers and nothing else changes.  [unsub] of
    words that are no key and that no title contains answers with the error
    and changes nothing. *)
Theorem respond_unsub ToLower Fields range parse msg st w u rest :
  (forall s, Forall (fun x => x ≠ "") (Fields s)) ->
  Fields (tapi.Text msg) = w :: u :: rest ->
  TrimPrefix (ToLower w) "/" ∈ ["unsub"; "unsubscribe"; "rm"] ->
  (forall feed, feeds st !! u = Some feed ->
     Respond ToLower Fields range parse (Some msg) st
     = Replied {| newState := {| feeds := <[u := Feed_Rm (tapi.Chat msg) feed]> (feeds st);
                                 seens := seens st |};
                  reply := {| ChatID := tapi.Chat msg; Text := "Unsubscribed from " ++ u |};
                  startsUpdate := false |}) /\
  (feeds st !! u = None ->
   Forall (fun p => Contains (ToLower (Title p.2)) (ToLower (Join (u :: rest) " ")) = false)
     (range (feeds st)) ->
   Respond ToLower Fields range parse (Some msg) st
   = Replied {| newState := st;
                reply := {| ChatID := tapi.Chat msg;
                            Text := "Error unsubscribing from " ++ u ++
                                    ": No matching subscription found" |};
                startsUpdate := false |}).
Proof.
  intros HF EF Hw. apply classify_unsub in Hw.
  assert (Hu : u ≠ "").
  { pose proof (HF (tapi.Text msg)) as H. rewrite EF in H.
    apply Forall_cons in H as [_ H]. by apply Forall_cons in H as [H _]. }
  split.
  - intros feed Hf. simpl. rewrite EF, Hw. unfold replyTo.
    rewrite Feeds_Rm_exact by (split; [done|by rewrite Hf]). simpl.
    do 3 f_equal. apply map_eq. intros u'. destruct (decide (u' = u)) as [->|Hne].
    + by rewrite lookup_alter_eq, lookup_insert_eq, Hf.
    + by rewrite lookup_alter_ne, lookup_insert_ne.
  - intros Hf Hno. simpl. rewrite EF, Hw. unfold replyTo.
    rewrite Feeds_Rm_fallback by (intros [_ [? ?]]; congruence).
    apply find_none_iff in Hno. unfold titleMatches. rewrite Hno. simpl.
    by destruct st.
Qed.

Lemma TrimPrefix_slash l : l = "/" ++ TrimPrefix l "/" \/ TrimPrefix l "/" = l.
Proof.
  unfold TrimPrefix. destruct (String.prefix "/" l) eqn:E; [left|by right].
  destruct l as [|c l]; [done|].
  destruct (Ascii.ascii_dec "/" c) as [<-|Hne]; [reflexivity|].
  exfalso. cbn [String.prefix] in E. by destruct (Ascii.ascii_dec "/" c).
Qed.

Lemma classify_rev0 l :
  TrimPrefix l "/" ∈ ["sub"; "subscribe"; "add"; "unsub"; "unsubscribe"; "rm"; "list"; "show"] ->
  Rev0Respond.classify l = classify (TrimPrefix l "/").
Proof.
  intros H. destruct (TrimPrefix_slash l) as [E|E].
  - rewrite E at 1.
    repeat (apply elem_of_cons in H as [->|H]); try by apply elem_of_nil in H.
    all: by vm_compute.
  - rewrite E in *.
    repeat (apply elem_of_cons in H as [->|H]); try by apply elem_of_nil in H.
    all: by vm_compute.
Qed.

Lemma rev0_classify_sub l :
  Rev0Respond.classify l = CmdSub <-> classify (TrimPrefix l "/") = CmdSub.
Proof.
  split.
  - unfold Rev0Respond.classify. repeat case_bool_decide; try done. intros _.
    repeat (apply elem_of_cons in H as [->|H]); try by apply elem_of_nil in H.
    all: by vm_compute.
  - intros H. rewrite classify_rev0; [done|]. apply classify_sub in H. set_solver.
Qed.

Lemma rev0_classify_unsub l :
  Rev0Respond.classify l = CmdUnsub <-> classify (TrimPrefix l "/") = CmdUnsub.
Proof.
  split.
  - unfold Rev0Respond.classify. repeat case_bool_decide; try done. intros _.
    repeat (apply elem_of_cons in H0 as [->|H0]); try by apply elem_of_nil in H0.
    all: by vm_compute.
  - intros H. rewrite classify_rev0; [done|]. apply classify_unsub in H. set_solver.
Qed.

(** X19: The two revisions of the handler answer the words [sub], [subscribe],
    [add], [unsub], [unsubscribe], [rm], [list] and [show], with or without
    the slash, in the same way; on every message that both answer they
    leave the same state and address the same chat. *)
Theorem respond_revisions ToLower Fields range parse msg st w args :
  Fields (tapi.Text msg) = w :: args ->
  (TrimPrefix (ToLower w) "/"
     ∈ ["sub"; "subscribe"; "add"; "unsub"; "unsubscribe"; "rm"; "list"; "show"] ->
   Rev0Respond.Respond ToLower Fields range parse (Some msg) st
   = Respond ToLower Fields range parse (Some msg) st) /\
  (forall r0 r,
     Rev0Respond.Respond ToLower Fields range parse (Some msg) st = Replied r0 ->
     Respond ToLower Fields range parse (Some msg) st = Replied r ->
     newState r0 = newState r /\ ChatID (reply r0) = ChatID (reply r)).
Proof.
  intros EF. split.
  - intros Hw. unfold Respond, Rev0Respond.Respond. rewrite EF.
    rewrite (classify_rev0 _ Hw).
    destruct (classify (TrimPrefix (ToLower w) "/")) eqn:EC; try done; exfalso.
    all: repeat (apply elem_of_cons in Hw as [Hw|Hw]); try (by apply elem_of_nil in Hw).
    all: rewrite Hw in EC; by vm_compute in EC.
  - intros r0 r. unfold Respond, Rev0Respond.Respond. rewrite EF.
    pose proof (rev0_classify_sub (ToLower w)) as Hs.
    pose proof (rev0_classify_unsub (ToLower w)) as Hu.
    destruct (classify (TrimPrefix (ToLower w) "/")) eqn:EC;
      destruct (Rev0Respond.classify (ToLower w)) eqn:E0;
      try (exfalso; destruct Hs as [Hs1 Hs2];
           first [discriminate (Hs1 eq_refl) | discriminate (Hs2 eq_refl)]);
      try (exfalso; destruct Hu as [Hu1 Hu2];
           first [discriminate (Hu1 eq_refl) | discriminate (Hu2 eq_refl)]);
      clear Hs Hu; unfold replyTo;
      destruct args as [|u args]; try destruct (tapi.From msg) as [user|];
      try destruct (String.eqb user "seankhliao");
      intros H0 H; by simplify_eq.
Qed.

Lemma respond_frame_witness :
  let r := {| newState :=
                {| feeds := addAll exampleParser ["http://b.test/rss"; "http://c.test/rss"] 2
                              (feeds exampleState);
                   seens := CheckSeen 2 (seens exampleState) |};
              reply := {| ChatID := 2; Text := "Subscribed to 2 feeds" |};
              startsUpdate := false |} in
  Respond ToLowerASCII FieldsASCII map_to_list exampleParser (Some subMessage) exampleState
  = Replied r /\
  forall c, keysOf (seens (newState r)) c = keysOf (seens exampleState) c.
Proof.
  intros r.
  assert (H : Respond ToLowerASCII FieldsASCII map_to_list exampleParser (Some subMessage)
                exampleState = Replied r) by (vm_compute; reflexivity).
  split; [exact H|].
  exact (proj1 (respond_frame ToLowerASCII FieldsASCII map_to_list exampleParser subMessage
                  exampleState r H)).
Defined.

Lemma respond_sub_witness :
  FieldsASCII (tapi.Text subMessage) = ["/Sub"; "http://b.test/rss"; "http://c.test/rss"] /\
  exists r,
    Respond ToLowerASCII FieldsASCII map_to_list exampleParser (Some subMessage) exampleState
    = Replied r /\
    reply r = {| ChatID := 2; Text := "Subscribed to 2 feeds" |} /\
    (2 ∈ chatsOf (feeds (newState r)) "http://b.test/rss") /\
    (2 ∉ chatsOf (feeds (newState r)) "http://c.test/rss").
Proof.
  assert (H1 : FieldsASCII (tapi.Text subMessage)
               = ["/Sub"; "http://b.test/rss"; "http://c.test/rss"]) by (vm_compute; reflexivity).
  assert (H2 : ["http://b.test/rss"; "http://c.test/rss"] ≠ []) by discriminate.
  assert (H3 : TrimPrefix (ToLowerASCII "/Sub") "/" ∈ ["sub"; "subscribe"; "add"]).
  { apply (bool_decide_unpack _). vm_compute. exact I. }
  split; [exact H1|].
  destruct (respond_sub ToLowerASCII FieldsASCII map_to_list exampleParser subMessage
              exampleState "/Sub" ["http://b.test/rss"; "http://c.test/rss"] H1 H2 H3)
    as (r & Hr & Hreply & _ & _ & Hchats).
  exists r. split; [exact Hr|]. split; [exact Hreply|]. split.
  - apply Hchats. right. split; [reflexivity|]. split.
    + apply (bool_decide_unpack _). vm_compute. exact I.
    + left. apply (bool_decide_unpack _). vm_compute. exact I.
  - intros Hin. apply Hchats in Hin as [Hin|(_ & _ & [Hk|[feed Hp]])].
    + revert Hin. apply (bool_decide_unpack _). vm_compute. exact I.
    + revert Hk. apply (bool_decide_unpack _). vm_compute. exact I.
    + vm_compute in Hp. discriminate Hp.
Defined.

Lemma respond_unsub_witness :
  Respond ToLowerASCII FieldsASCII map_to_list exampleParser (Some unsubMessage) exampleState
  = Replied {| newState :=
                 {| feeds := <["http://a.test/rss" := {| Chats := {[1; 2]} ∖ {[2]};
                                                         Title := "Tech News" |}]>
                               (feeds exampleState);
                    seens := seens exampleState |};
               reply := {| ChatID := 2; Text := "Unsubscribed from http://a.test/rss" |};
               startsUpdate := false |}.
Proof.
  assert (H1 : FieldsASCII (tapi.Text unsubMessage) = ["rm"; "http://a.test/rss"; "tech"])
    by (vm_compute; reflexivity).
  assert (H2 : TrimPrefix (ToLowerASCII "rm") "/" ∈ ["unsub"; "unsubscribe"; "rm"]).
  { apply (bool_decide_unpack _). vm_compute. exact I. }
  assert (H3 : feeds exampleState !! "http://a.test/rss"
               = Some {| Chats := {[1; 2]}; Title := "Tech News" |}).
  { unfold exampleState, exampleFeeds. simpl. apply lookup_insert_eq. }
  exact (proj1 (respond_unsub ToLowerASCII FieldsASCII map_to_list exampleParser unsubMessage
                  exampleState "rm" "http://a.test/rss" ["tech"]
                  FieldsASCII_nonempty H1 H2) _ H3).
Defined.

Lemma respond_revisions_witness :
  FieldsASCII (tapi.Text subMessage) = ["/Sub"; "http://b.test/rss"; "http://c.test/rss"] /\
  Rev0Respond.Respond ToLowerASCII FieldsASCII map_to_list exampleParser (Some subMessage)
    exampleState
  = Respond ToLowerASCII FieldsASCII map_to_list exampleParser (Some subMessage) exampleState.
Proof.
  assert (H1 : FieldsASCII (tapi.Text subMessage)
               = ["/Sub"; "http://b.test/rss"; "http://c.test/rss"]) by (vm_compute; reflexivity).
  split; [exact H1|].
  apply (proj1 (respond_revisions ToLowerASCII FieldsASCII map_to_list exampleParser subMessage
                  exampleState "/Sub" ["http://b.test/rss"; "http://c.test/rss"] H1)).
  apply (bool_decide_unpack _). vm_compute. exact I.
Defined.
